(** * Grid painting and viewport engine of the 2D block editor

    A shallow embedding of [src/components/MinecraftEditor.tsx]: the grid
    held in React state, [paintCell], [floodFill], [handleCanvasClick],
    [getCanvasCoordinates] and the zoom handlers, with the properties the
    specification states about them. *)

From Stdlib Require Import ZArith QArith Qround Qabs Qpower Lqa Lia.
From stdpp Require Import gmap strings list fin_maps.

Local Open Scope Z_scope.

(** * The program *)

(** ** Constants *)

Definition CANVAS_WIDTH : Z := 64.
Definition CANVAS_HEIGHT : Z := 48.
Definition CELL_SIZE : Z := 16.

(** ** JavaScript arrays

    A JavaScript array is an object: a [length] and properties keyed by
    the index.  Reading a missing key gives [undefined] ([None]); writing
    at an index at or beyond [length] grows the array and leaves holes;
    writing at a negative key stores an ordinary property and leaves
    [length] alone. *)

Record JsArray (A : Type) : Type := mkJsArray {
  arr_length : Z;
  arr_props : gmap Z A
}.
Arguments mkJsArray {A} _ _.
Arguments arr_length {A} _.
Arguments arr_props {A} _.

Module Js.
Section Array.
Context {A B : Type}.

(** [a[i]] *)
Definition get (a : JsArray A) (i : Z) : option A := arr_props a !! i.

(** The keys that are array indices: [0 <= i < 2^32 - 1]. *)
Definition is_index (i : Z) : bool := (0 <=? i) && (i <? 4294967295).

(** [a[i] = v] *)
Definition set (a : JsArray A) (i : Z) (v : A) : JsArray A :=
  {| arr_length :=
       if is_index i && (arr_length a <=? i) then i + 1 else arr_length a;
     arr_props := <[i := v]> (arr_props a) |}.

(** The elements an iteration over [a] visits: keys in [0, length). *)
Definition elements (a : JsArray A) : gmap Z A :=
  filter (λ kv, 0 ≤ kv.1 < arr_length a) (arr_props a).

(** [[...a]] *)
Definition spread (a : JsArray A) : JsArray A :=
  {| arr_length := arr_length a; arr_props := elements a |}.

(** [a.map(f)] *)
Definition map (f : A → B) (a : JsArray A) : JsArray B :=
  {| arr_length := arr_length a; arr_props := f <$> elements a |}.

(** [Array(n).fill(null).map(i => f i)] *)
Definition make (n : Z) (f : Z → A) : JsArray A :=
  {| arr_length := n;
     arr_props := list_to_map ((λ i, (i, f i)) <$> seqZ 0 n) |}.
End Array.
End Js.

(** ** Data model *)

Inductive Tool : Type := brush | eraser | fill.

Record Cell : Type := mkCell { blockId : string }.

(** Modelled from the spec: the block descriptor of the catalog
    ([MinecraftBlock], declared in [data/minecraftBlocks], which is not
    among the sources): [{ id, name, color, category }]. *)
Record MinecraftBlock : Type := mkBlock {
  id : string;
  name : string;
  color : string;
  category : string
}.

(** [Cell[][]]: an array of rows, each an array of cells.  Cells are
    never mutated in place (every write stores a fresh object) and every
    mutation works on a copy of the rows, so values stand for the
    objects. *)
Definition Grid : Type := JsArray (JsArray Cell).

(** What running a handler gives: a value, a thrown [TypeError], or, for
    the model of a loop, no answer within the given number of
    iterations. *)
Inductive outcome (A : Type) : Type :=
| Done (a : A)
| TypeError
| OutOfFuel.
Arguments Done {A} _.
Arguments TypeError {A}.
Arguments OutOfFuel {A}.

(** What an outcome shows through an observation of its value. *)
Definition observe {A B : Type} (f : A → B) (o : outcome A) : outcome B :=
  match o with
  | Done a => Done (f a)
  | TypeError => TypeError
  | OutOfFuel => OutOfFuel
  end.

(** Running a second handler on the state the first one left. *)
Definition andThen {A B : Type} (o : outcome A) (k : A → outcome B)
    : outcome B :=
  match o with
  | Done a => k a
  | TypeError => TypeError
  | OutOfFuel => OutOfFuel
  end.

Definition air : Cell := {| blockId := "air" |}.

(** The initial state of [grid], also what [clearCanvas] stores. *)
Definition emptyGrid : Grid :=
  Js.make CANVAS_HEIGHT (λ _, Js.make CANVAS_WIDTH (λ _, air)).

(** [g[y][x]]; [None] when the row or the cell is [undefined] (reading a
    property of either then throws). *)
Definition cellAt (g : Grid) (x y : Z) : option Cell :=
  row ← Js.get g y; Js.get row x.

(** [g[y][x] = c]: throws when [g[y]] is [undefined], otherwise stores
    into that row object. *)
Definition storeCell (g : Grid) (x y : Z) (c : Cell) : outcome Grid :=
  match Js.get g y with
  | None => TypeError
  | Some row =>
      Done {| arr_length := arr_length g;
              arr_props := <[y := Js.set row x c]> (arr_props g) |}
  end.

(** [prev.map(row => [...row])] *)
Definition copyGrid (g : Grid) : Grid := Js.map Js.spread g.

(** ** paintCell *)

Definition paintCell (tool : Tool) (selectedBlock : MinecraftBlock)
    (x y : Z) (prev : Grid) : outcome Grid :=
  let newGrid := copyGrid prev in
  match tool with
  | brush => storeCell newGrid x y {| blockId := id selectedBlock |}
  | eraser => storeCell newGrid x y {| blockId := "air" |}
  | fill => Done newGrid
  end.

(** ** floodFill *)

Definition out_of_canvas (x y : Z) : bool :=
  (x <? 0) || (x >=? CANVAS_WIDTH) || (y <? 0) || (y >=? CANVAS_HEIGHT).

(** The [while (stack.length > 0)] loop.  The work stack is a list whose
    head is the top: [pop] takes the head, and
    [push(a, b, c, d)] leaves [d] on top. *)
Fixpoint floodLoop (fuel : nat) (targetBlockId replacementBlockId : string)
    (newGrid : Grid) (stack : list (Z * Z)) : outcome Grid :=
  match stack with
  | [] => Done newGrid
  | (x, y) :: rest =>
      match fuel with
      | O => OutOfFuel
      | S fuel' =>
          if out_of_canvas x y then
            floodLoop fuel' targetBlockId replacementBlockId newGrid rest
          else
            match cellAt newGrid x y with
            | None => TypeError
            | Some c =>
                if negb (String.eqb (blockId c) targetBlockId) then
                  floodLoop fuel' targetBlockId replacementBlockId newGrid rest
                else
                  match storeCell newGrid x y
                          {| blockId := replacementBlockId |} with
                  | Done newGrid' =>
                      floodLoop fuel' targetBlockId replacementBlockId newGrid'
                        ((x, y - 1) :: (x, y + 1) :: (x - 1, y) :: (x + 1, y)
                           :: rest)
                  | TypeError => TypeError
                  | OutOfFuel => OutOfFuel
                  end
            end
      end
  end.

(** [floodFill(startX, startY)]: the next value of the [grid] state.  On
    the early [return] no [setGrid] happens and the state stays as it
    is. *)
Definition floodFill (fuel : nat) (tool : Tool) (selectedBlock : MinecraftBlock)
    (startX startY : Z) (grid : Grid) : outcome Grid :=
  match cellAt grid startX startY with
  | None => TypeError
  | Some c =>
      let targetBlockId := blockId c in
      let replacementBlockId :=
        match tool with eraser => "air"%string | _ => id selectedBlock end in
      if String.eqb targetBlockId replacementBlockId then Done grid
      else floodLoop fuel targetBlockId replacementBlockId (copyGrid grid)
             [(startX, startY)]
  end.


(** ** JavaScript numbers

    A finite JavaScript number is a binary64 value, hence a rational.
    Every arithmetic operation gives the exact result rounded to the
    nearest binary64 value, ties to even, with 53 significant bits and
    least exponent [-1074].  Results whose magnitude reaches [2^1024]
    (JavaScript's [Infinity]) and [NaN] are outside this model, and so
    is a division by zero, which gives one of them: the model rounds
    with an unbounded exponent and divides by zero as [Q] does.  The
    theorems about clicks and runs of the component carry hypotheses
    that keep the operands where neither arises. *)

(** [floor (log2 x)] for [0 < x]. *)
Definition Qlog2 (x : Q) : Z :=
  let k := Z.log2 (Qnum x) - Z.log2 (Zpos (Qden x)) in
  if Qle_bool (2 ^ k) x then k else k - 1.

(** Nearest integer, ties to even. *)
Definition round_half_even (x : Q) : Z :=
  let f := Qfloor x in
  match (x - inject_Z f ?= 1 # 2)%Q with
  | Lt => f
  | Gt => f + 1
  | Eq => if Z.even f then f else f + 1
  end.

(** Exponent of the last place of the binary64 values around [x]. *)
Definition ulp_exp (x : Q) : Z := Z.max (Qlog2 (Qabs x) - 52) (-1074).

Definition rnd64 (x : Q) : Q :=
  if Qeq_bool x 0 then 0%Q
  else
    let e := ulp_exp x in
    Qred (inject_Z (round_half_even (x / 2 ^ e)) * 2 ^ e).

Module Number.
Definition add (a b : Q) : Q := rnd64 (a + b).
Definition sub (a b : Q) : Q := rnd64 (a - b).
Definition mul (a b : Q) : Q := rnd64 (a * b).
Definition div (a b : Q) : Q := rnd64 (a / b).
(** A decimal literal of the source text. *)
Definition lit (q : Q) : Q := rnd64 q.
End Number.

Module Math.
Definition floor (x : Q) : Z := Qfloor x.
Definition max (a b : Q) : Q := if Qle_bool a b then b else a.
Definition min (a b : Q) : Q := if Qle_bool a b then a else b.
End Math.

(** ** The editor's state and its handlers *)

(** [canvas.getBoundingClientRect()] *)
Record DOMRect : Type := mkRect { rect_left : Q; rect_top : Q }.

(** The state of the component that the handlers below read.
    [canvasRef] is [None] while the canvas is not mounted, and otherwise
    holds its bounding rectangle. *)
Record Editor : Type := mkEditor {
  grid : Grid;
  selectedBlock : MinecraftBlock;
  tool : Tool;
  zoom : Q;
  panOffset : Q * Q;
  canvasRef : option DOMRect
}.

Definition getCanvasCoordinates (ed : Editor) (clientX clientY : Q)
    : option (Z * Z) :=
  match canvasRef ed with
  | None => None
  | Some rect =>
      let x := Math.floor
                 (Number.div
                    (Number.sub (Number.sub clientX (rect_left rect))
                       (panOffset ed).1)
                    (Number.mul (inject_Z CELL_SIZE) (zoom ed))) in
      let y := Math.floor
                 (Number.div
                    (Number.sub (Number.sub clientY (rect_top rect))
                       (panOffset ed).2)
                    (Number.mul (inject_Z CELL_SIZE) (zoom ed))) in
      Some (x, y)
  end.

(** A mouse event, or a touch event with its list of touches. *)
Inductive PointerEvent : Type :=
| MouseEvent (clientX clientY : Q)
| TouchEvent (touches : list (Q * Q)).

(** The [clientX], [clientY] that [handleCanvasClick] reads off the
    event: those of the first touch if the event has [touches] (none if
    that list is empty), those of the mouse event otherwise. *)
Definition clientPoint (e : PointerEvent) : option (Q * Q) :=
  match e with
  | TouchEvent [] => None
  | TouchEvent (t :: _) => Some t
  | MouseEvent clientX clientY => Some (clientX, clientY)
  end.

(** [handleCanvasClick(e)]: the next value of the [grid] state. *)
Definition handleCanvasClick (fuel : nat) (ed : Editor) (e : PointerEvent)
    : outcome Grid :=
  match clientPoint e with
  | None => Done (grid ed)
  | Some (clientX, clientY) =>
      match getCanvasCoordinates ed clientX clientY with
      | None => Done (grid ed)
      | Some (x, y) =>
          if out_of_canvas x y then Done (grid ed)
          else
            match tool ed with
            | fill => floodFill fuel (tool ed) (selectedBlock ed) x y (grid ed)
            | _ => paintCell (tool ed) (selectedBlock ed) x y (grid ed)
            end
      end
  end.

(** [handleWheel]: the state update [prev => ...] for a wheel event with
    the given [deltaY]. *)
Definition handleWheel (deltaY : Q) (prev : Q) : Q :=
  let delta :=
    if negb (Qle_bool deltaY 0) then (- Number.lit (1 # 10))%Q
    else Number.lit (1 # 10) in
  Math.max (1 # 4) (Math.min 5 (Number.add prev delta)).

(** The zoom-out and zoom-in buttons of the sidebar. *)
Definition zoomOutClick (zoom : Q) : Q :=
  Math.max (1 # 4) (Number.sub zoom (1 # 4)).

Definition zoomInClick (zoom : Q) : Q :=
  Math.min 5 (Number.add zoom (1 # 4)).

(** Everything that sets [zoom]: the wheel, the two buttons, the
    reset-view button ([setZoom(1)]) and the switch to the mobile layout
    ([setZoom(0.75)]). *)
Inductive ZoomChange : Type :=
| Wheel (deltaY : Q)
| ZoomOutButton
| ZoomInButton
| ResetView
| MobileLayout.

Definition applyZoom (z : Q) (c : ZoomChange) : Q :=
  match c with
  | Wheel deltaY => handleWheel deltaY z
  | ZoomOutButton => zoomOutClick z
  | ZoomInButton => zoomInClick z
  | ResetView => 1
  | MobileLayout => 3 # 4
  end.

(** * Vocabulary of the properties *)

(** ** Well-formed grids

    The grid of the data model: [CANVAS_HEIGHT] rows of [CANVAS_WIDTH]
    cells, every cell present, and no property besides the elements. *)

Definition wf_row (r : JsArray Cell) : Prop :=
  arr_length r = CANVAS_WIDTH ∧
  ∀ x, is_Some (arr_props r !! x) ↔ 0 ≤ x < CANVAS_WIDTH.

Definition wf_grid (g : Grid) : Prop :=
  arr_length g = CANVAS_HEIGHT ∧
  (∀ y, is_Some (arr_props g !! y) ↔ 0 ≤ y < CANVAS_HEIGHT) ∧
  (∀ y r, arr_props g !! y = Some r → wf_row r).

Definition in_canvas (x y : Z) : Prop :=
  0 ≤ x < CANVAS_WIDTH ∧ 0 ≤ y < CANVAS_HEIGHT.


(** ** Regions and counts *)

(** The identifier held at [(x, y)]. *)
Definition blockAt (g : Grid) (x y : Z) : option string :=
  blockId <$> cellAt g x y.

(** The four axis neighbours. *)
Definition adjacent (p q : Z * Z) : Prop :=
  q = (p.1 + 1, p.2) ∨ q = (p.1 - 1, p.2) ∨
  q = (p.1, p.2 + 1) ∨ q = (p.1, p.2 - 1).

(** [connected g t s p]: a 4-connected path leads from [s] to [p] through
    cells of the canvas that all hold [t] in [g] (both ends included). *)
Inductive connected (g : Grid) (t : string) (s : Z * Z) : Z * Z → Prop :=
| connected_start :
    in_canvas s.1 s.2 → blockAt g s.1 s.2 = Some t → connected g t s s
| connected_step p q :
    connected g t s p → adjacent p q → in_canvas q.1 q.2 →
    blockAt g q.1 q.2 = Some t → connected g t s q.

(** Every cell of the canvas, and how many of them hold [t]. *)
Definition canvasCells : list (Z * Z) :=
  list_prod (seqZ 0 CANVAS_WIDTH) (seqZ 0 CANVAS_HEIGHT).

Definition holds (g : Grid) (t : string) (p : Z * Z) : Prop :=
  blockAt g p.1 p.2 = Some t.

#[global] Instance holds_dec g t p : Decision (holds g t p).
Proof. unfold holds. apply _. Defined.

Definition targetCount (g : Grid) (t : string) : nat :=
  length (filter (holds g t) canvasCells).

(** The replacement identifier [floodFill] computes. *)
Definition replacementOf (tool : Tool) (selectedBlock : MinecraftBlock) : string :=
  match tool with eraser => "air"%string | _ => id selectedBlock end.

(** Iterations that always suffice: four pushes per cell and the first
    pop. *)
Definition enoughFuel : nat :=
  Z.to_nat (4 * (CANVAS_WIDTH * CANVAS_HEIGHT) + 1).

(** What one iteration of the loop does to a well-formed grid and to the
    stack below the popped [(x, y)]. *)
Inductive iteration (target repl : string) (g : Grid) (x y : Z)
    (rest : list (Z * Z)) : Grid → list (Z * Z) → Prop :=
| iter_outside :
    ¬ in_canvas x y → iteration target repl g x y rest g rest
| iter_other :
    in_canvas x y → blockAt g x y ≠ Some target →
    iteration target repl g x y rest g rest
| iter_fill g' :
    in_canvas x y → blockAt g x y = Some target → wf_grid g' →
    cellAt g' x y = Some {| blockId := repl |} →
    (∀ x' y', (x', y') ≠ (x, y) → cellAt g' x' y' = cellAt g x' y') →
    iteration target repl g x y rest g'
      ((x, y - 1) :: (x, y + 1) :: (x - 1, y) :: (x + 1, y) :: rest).

(** The invariant of the loop, relating the grid [g] being filled and the
    stack to the grid [g0] the fill started from at [start]. *)
Definition filled (g0 g : Grid) (target repl : string) (p : Z * Z) : Prop :=
  blockAt g0 p.1 p.2 = Some target ∧
  cellAt g p.1 p.2 = Some {| blockId := repl |}.

Record flood_inv (g0 : Grid) (target repl : string) (start : Z * Z)
    (g : Grid) (stack : list (Z * Z)) : Prop := mkFloodInv {
  (* a cell is as it was, or was a target cell of the region and is filled *)
  inv_cells : ∀ p,
    cellAt g p.1 p.2 = cellAt g0 p.1 p.2 ∨
    (filled g0 g target repl p ∧ connected g0 target start p);
  (* what waits on the stack and matched at the start lies in the region *)
  inv_stack : ∀ q,
    q ∈ stack → in_canvas q.1 q.2 → blockAt g0 q.1 q.2 = Some target →
    connected g0 target start q;
  (* the start cell waits on the stack or is filled *)
  inv_start : start ∈ stack ∨ filled g0 g target repl start;
  (* a matching neighbour of a filled cell waits on the stack *)
  inv_front : ∀ p q,
    filled g0 g target repl p → adjacent p q → in_canvas q.1 q.2 →
    blockAt g q.1 q.2 = Some target → q ∈ stack
}.

(** ** Screen points and catalog entries *)

(** The screen point of a cell centre, as the expression
    [(col * 16 + 8) * zoom + pan] evaluates. *)
Definition cellCentre (i : Z) (zoom pan : Q) : Q :=
  Number.add (Number.mul (inject_Z (i * CELL_SIZE + 8)) zoom) pan.

(** A catalog entry with the given identifier.  The handlers read no
    field of the selected block but [id]. *)
Definition block (i : string) : MinecraftBlock :=
  {| id := i; name := i; color := "#808080"; category := "blocks" |}.

(** ** Grids of the scenarios *)

(** Brush strokes on a list of cells, one [paintCell] after the other. *)
Definition paintAll (sel : MinecraftBlock) (cells : list (Z * Z)) (g : Grid)
    : outcome Grid :=
  fold_left (λ o p, andThen o (paintCell brush sel p.1 p.2)) cells (Done g).

(** The cells of the 3 x 3 block whose top-left corner is [(x, y)]. *)
Definition block3x3 (x y : Z) : list (Z * Z) :=
  list_prod (seqZ x 3) (seqZ y 3).

(** Two 3 x 3 blocks of "stone", at (2, 2) and at (10, 2), with "air"
    between and around them. *)
Definition twoBlocks : outcome Grid :=
  paintAll (block "stone") (block3x3 2 2 ++ block3x3 10 2) emptyGrid.

(** * The rest of the component *)

(** ** State *)

(** The state of the component besides what [Editor] holds.  The flag
    [isMobileMenuOpen] is left out: it opens the side sheet, and no
    handler below reads it. *)
Record Session : Type := mkSession {
  editor : Editor;
  isDrawing : bool;
  isPanning : bool;
  panStart : Q * Q;
  showGrid : bool;
  activeTab : string
}.

(** The state setters. *)
Definition setGrid (g : Grid) (s : Session) : Session :=
  {| editor := {| grid := g;
                  selectedBlock := selectedBlock (editor s);
                  tool := tool (editor s);
                  zoom := zoom (editor s);
                  panOffset := panOffset (editor s);
                  canvasRef := canvasRef (editor s) |};
     isDrawing := isDrawing s; isPanning := isPanning s;
     panStart := panStart s; showGrid := showGrid s;
     activeTab := activeTab s |}.

Definition setSelectedBlock (b : MinecraftBlock) (s : Session) : Session :=
  {| editor := {| grid := grid (editor s);
                  selectedBlock := b;
                  tool := tool (editor s);
                  zoom := zoom (editor s);
                  panOffset := panOffset (editor s);
                  canvasRef := canvasRef (editor s) |};
     isDrawing := isDrawing s; isPanning := isPanning s;
     panStart := panStart s; showGrid := showGrid s;
     activeTab := activeTab s |}.

Definition setTool (t : Tool) (s : Session) : Session :=
  {| editor := {| grid := grid (editor s);
                  selectedBlock := selectedBlock (editor s);
                  tool := t;
                  zoom := zoom (editor s);
                  panOffset := panOffset (editor s);
                  canvasRef := canvasRef (editor s) |};
     isDrawing := isDrawing s; isPanning := isPanning s;
     panStart := panStart s; showGrid := showGrid s;
     activeTab := activeTab s |}.

Definition setZoom (z : Q) (s : Session) : Session :=
  {| editor := {| grid := grid (editor s);
                  selectedBlock := selectedBlock (editor s);
                  tool := tool (editor s);
                  zoom := z;
                  panOffset := panOffset (editor s);
                  canvasRef := canvasRef (editor s) |};
     isDrawing := isDrawing s; isPanning := isPanning s;
     panStart := panStart s; showGrid := showGrid s;
     activeTab := activeTab s |}.

Definition setPanOffset (p : Q * Q) (s : Session) : Session :=
  {| editor := {| grid := grid (editor s);
                  selectedBlock := selectedBlock (editor s);
                  tool := tool (editor s);
                  zoom := zoom (editor s);
                  panOffset := p;
                  canvasRef := canvasRef (editor s) |};
     isDrawing := isDrawing s; isPanning := isPanning s;
     panStart := panStart s; showGrid := showGrid s;
     activeTab := activeTab s |}.

(** The canvas element is mounted, moved or unmounted: what
    [canvasRef.current] and its bounding rectangle become. *)
Definition setCanvas (c : option DOMRect) (s : Session) : Session :=
  {| editor := {| grid := grid (editor s);
                  selectedBlock := selectedBlock (editor s);
                  tool := tool (editor s);
                  zoom := zoom (editor s);
                  panOffset := panOffset (editor s);
                  canvasRef := c |};
     isDrawing := isDrawing s; isPanning := isPanning s;
     panStart := panStart s; showGrid := showGrid s;
     activeTab := activeTab s |}.

Definition setIsDrawing (b : bool) (s : Session) : Session :=
  {| editor := editor s; isDrawing := b; isPanning := isPanning s;
     panStart := panStart s; showGrid := showGrid s;
     activeTab := activeTab s |}.

Definition setIsPanning (b : bool) (s : Session) : Session :=
  {| editor := editor s; isDrawing := isDrawing s; isPanning := b;
     panStart := panStart s; showGrid := showGrid s;
     activeTab := activeTab s |}.

Definition setPanStart (p : Q * Q) (s : Session) : Session :=
  {| editor := editor s; isDrawing := isDrawing s; isPanning := isPanning s;
     panStart := p; showGrid := showGrid s; activeTab := activeTab s |}.

Definition setShowGrid (b : bool) (s : Session) : Session :=
  {| editor := editor s; isDrawing := isDrawing s; isPanning := isPanning s;
     panStart := panStart s; showGrid := b; activeTab := activeTab s |}.

Definition setActiveTab (t : string) (s : Session) : Session :=
  {| editor := editor s; isDrawing := isDrawing s; isPanning := isPanning s;
     panStart := panStart s; showGrid := showGrid s; activeTab := t |}.

(** The state the component starts in (the initial values of its
    [useState] hooks), for a given [minecraftBlocks[7]] and canvas. *)
Definition initialSession (block7 : MinecraftBlock) (c : option DOMRect)
    : Session :=
  {| editor := {| grid := emptyGrid;
                  selectedBlock := block7;
                  tool := brush;
                  zoom := 1;
                  panOffset := (0%Q, 0%Q);
                  canvasRef := c |};
     isDrawing := false; isPanning := false;
     panStart := (0%Q, 0%Q); showGrid := true;
     activeTab := "editor" |}.

(** ** Mouse and touch handlers *)

(** [handleMouseDown]: the middle button or the shift key starts a pan,
    anything else a stroke.  The third test of the source,
    [tool === 'pan'], holds for no value of [Tool]. *)
Definition handleMouseDown (fuel : nat) (button : Z) (shiftKey : bool)
    (clientX clientY : Q) (s : Session) : outcome Session :=
  if (button =? 1) || shiftKey then
    Done (setPanStart
            (Number.sub clientX (panOffset (editor s)).1,
             Number.sub clientY (panOffset (editor s)).2)
            (setIsPanning true s))
  else
    observe (λ g, setGrid g (setIsDrawing true s))
      (handleCanvasClick fuel (editor s) (MouseEvent clientX clientY)).

Definition handleMouseMove (fuel : nat) (clientX clientY : Q) (s : Session)
    : outcome Session :=
  if isPanning s then
    Done (setPanOffset
            (Number.sub clientX (panStart s).1,
             Number.sub clientY (panStart s).2) s)
  else if negb (isDrawing s)
          || match tool (editor s) with fill => true | _ => false end then
    Done s
  else
    observe (λ g, setGrid g s)
      (handleCanvasClick fuel (editor s) (MouseEvent clientX clientY)).

(** [handleMouseUp], also bound to [onMouseLeave]. *)
Definition handleMouseUp (s : Session) : Session :=
  setIsPanning false (setIsDrawing false s).

Definition handleTouchStart (fuel : nat) (touches : list (Q * Q))
    (s : Session) : outcome Session :=
  observe (λ g, setGrid g (setIsDrawing true s))
    (handleCanvasClick fuel (editor s) (TouchEvent touches)).

Definition handleTouchMove (fuel : nat) (touches : list (Q * Q))
    (s : Session) : outcome Session :=
  if negb (isDrawing s)
     || match tool (editor s) with fill => true | _ => false end then
    Done s
  else
    observe (λ g, setGrid g s)
      (handleCanvasClick fuel (editor s) (TouchEvent touches)).

Definition handleTouchEnd (s : Session) : Session := setIsDrawing false s.

(** ** Sidebar actions *)

(** [clearCanvas] (its toast apart). *)
Definition clearCanvas (s : Session) : Session := setGrid emptyGrid s.

(** [loadTemplate(templateGrid)] (its toast apart). *)
Definition loadTemplate (templateGrid : Grid) (s : Session) : Session :=
  setActiveTab "editor" (setGrid templateGrid s).

(** The reset-view button. *)
Definition resetView (s : Session) : Session :=
  setZoom 1 (setPanOffset (0%Q, 0%Q) s).

(** The gallery button. *)
Definition toggleGallery (s : Session) : Session :=
  setActiveTab
    (if String.eqb (activeTab s) "editor" then "gallery" else "editor")%string
    s.

(** ** Templates *)

(** [for (let i = lo; i < hi; i++) body], threading the state. *)
Definition forRange {S : Type} (lo hi : Z) (body : Z → S → outcome S)
    (s : S) : outcome S :=
  fold_left (λ o i, andThen o (body i)) (seqZ lo (hi - lo)) (Done s).

Definition generateHouseTemplate : outcome Grid :=
  let template := emptyGrid in
  andThen
    (forRange 25 35 (λ y,
       forRange 20 40 (λ x template,
         if (y =? 25) || (y =? 34) || (x =? 20) || (x =? 39) then
           storeCell template x y {| blockId := "oak_planks" |}
         else Done template))
       template)
    (forRange 0 10 (λ i template,
       andThen
         (storeCell template (25 + i) (24 - i) {| blockId := "bricks" |})
         (λ template,
            storeCell template (34 - i) (24 - i) {| blockId := "bricks" |}))).

(** The tree draws [Math.random()] once for each cell of the crown, in
    loop order; [random n] is the [n]-th draw. *)
Definition generateTreeTemplate (random : nat → Q) : outcome Grid :=
  let template := emptyGrid in
  andThen
    (forRange 30 40 (λ y template,
       storeCell template 32 y {| blockId := "oak_log" |}) template)
    (λ template,
       observe fst
         (forRange 22 30 (λ y,
            forRange 28 37 (λ x st,
              let '(template, n) := st in
              if negb (Qle_bool (random n) (Number.lit (3 # 10))) then
                observe (λ t, (t, S n))
                  (storeCell template x y {| blockId := "oak_log" |})
              else Done (template, S n)))
            (template, 0%nat))).

Definition generateSwordTemplate : outcome Grid :=
  let template := emptyGrid in
  andThen
    (forRange 0 20 (λ i template,
       storeCell template 32 (15 + i) {| blockId := "iron_block" |}) template)
    (λ template,
       andThen (storeCell template 31 35 {| blockId := "brown_wool" |})
         (λ template,
       andThen (storeCell template 32 35 {| blockId := "brown_wool" |})
         (λ template,
       andThen (storeCell template 33 35 {| blockId := "brown_wool" |})
         (λ template,
       storeCell template 32 36 {| blockId := "brown_wool" |})))).

(** Whether the draw for the crown cell [(x, y)] exceeded 0.3: the
    draws are taken row by row, nine to a row. *)
Definition drawn (random : nat → Q) (x y : Z) : bool :=
  negb (Qle_bool (random (Z.to_nat (9 * (y - 22) + (x - 28))))
          (Number.lit (3 # 10))).

(** What the tree holds at [(x, y)] once the crown loop has done the rows
    above [yy] and the cells left of [xx] in row [yy]. *)
Definition treePartial (random : nat → Q) (yy xx x y : Z) : string :=
  if bool_decide (x = 32 ∧ 30 ≤ y < 40) then "oak_log"
  else if bool_decide (28 ≤ x < 37 ∧ 22 ≤ y < 30 ∧
                       (y < yy ∨ (y = yy ∧ x < xx)))
          && drawn random x y
       then "oak_log" else "air".

(** What the finished tree holds at [(x, y)]: the trunk in column 32,
    rows 30 to 39, and in the crown, columns 28 to 36 of rows 22 to 29,
    a log wherever the draw exceeded 0.3. *)
Definition treeCell (random : nat → Q) (x y : Z) : string :=
  treePartial random 30 28 x y.

(** The cards of the gallery. *)
Inductive Template : Type :=
| House
| Tree (random : nat → Q)
| Sword.

Definition templateGrid (t : Template) : outcome Grid :=
  match t with
  | House => generateHouseTemplate
  | Tree random => generateTreeTemplate random
  | Sword => generateSwordTemplate
  end.

(** ** The component as a transition system *)

Inductive Input : Type :=
| MouseDown (button : Z) (shiftKey : bool) (clientX clientY : Q)
| MouseMove (clientX clientY : Q)
| MouseUp
| TouchStart (touches : list (Q * Q))
| TouchMove (touches : list (Q * Q))
| TouchEnd
| Zoom (c : ZoomChange)
| SelectTool (t : Tool)
| SelectBlock (b : MinecraftBlock)
| ToggleGrid
| ToggleGallery
| Clear
| LoadTemplate (t : Template)
| Layout (c : option DOMRect).

Definition handleInput (fuel : nat) (i : Input) (s : Session)
    : outcome Session :=
  match i with
  | MouseDown button shiftKey clientX clientY =>
      handleMouseDown fuel button shiftKey clientX clientY s
  | MouseMove clientX clientY => handleMouseMove fuel clientX clientY s
  | MouseUp => Done (handleMouseUp s)
  | TouchStart touches => handleTouchStart fuel touches s
  | TouchMove touches => handleTouchMove fuel touches s
  | TouchEnd => Done (handleTouchEnd s)
  | Zoom ResetView => Done (resetView s)
  | Zoom c => Done (setZoom (applyZoom (zoom (editor s)) c) s)
  | SelectTool t => Done (setTool t s)
  | SelectBlock b => Done (setSelectedBlock b s)
  | ToggleGrid => Done (setShowGrid (negb (showGrid s)) s)
  | ToggleGallery => Done (toggleGallery s)
  | Clear => Done (clearCanvas s)
  | LoadTemplate t => observe (λ g, loadTemplate g s) (templateGrid t)
  | Layout c => Done (setCanvas c s)
  end.

Definition handleInputs (fuel : nat) (inputs : list Input) (s : Session)
    : outcome Session :=
  fold_left (λ o i, andThen o (handleInput fuel i)) inputs (Done s).

(** What every state of the component satisfies: the grid has its shape
    and the zoom is within its bounds. *)
Definition session_ok (s : Session) : Prop :=
  wf_grid (grid (editor s)) ∧
  (1 # 4 <= zoom (editor s))%Q ∧ (zoom (editor s) <= 5)%Q.

(** ** The range of the number model

    The operations of [Number] are those of the code as long as no
    result reaches [2^1024] in magnitude and no divisor is zero; beyond
    that the code computes with [Infinity] and [NaN], which the model
    does not have.  The predicates below keep a run inside that range:
    the zoom within its bounds and every coordinate of magnitude at
    most [B], for a [B] of at most [finiteRange]. *)

Definition finiteRange : Q := 2 ^ 1000.

Definition within (B x : Q) : Prop := (Qabs x <= B)%Q.

Definition point_within (B : Q) (p : Q * Q) : Prop :=
  within B p.1 ∧ within B p.2.

(** The corner of the canvas, where it is mounted. *)
Definition canvas_within (B : Q) (c : option DOMRect) : Prop :=
  match c with
  | Some rect => within B (rect_left rect) ∧ within B (rect_top rect)
  | None => True
  end.

(** The pointer position that [handleCanvasClick] reads off the event. *)
Definition event_within (B : Q) (e : PointerEvent) : Prop :=
  match clientPoint e with
  | Some p => point_within B p
  | None => True
  end.

(** What the transform reads of the editor: the zoom in [0.25, 5], the
    pan offset and the corner of the canvas within [B]. *)
Definition view_within (B : Q) (ed : Editor) : Prop :=
  (1 # 4 <= zoom ed)%Q ∧ (zoom ed <= 5)%Q ∧
  point_within B (panOffset ed) ∧ canvas_within B (canvasRef ed).

Definition input_within (B : Q) (i : Input) : Prop :=
  match i with
  | MouseDown _ _ clientX clientY | MouseMove clientX clientY =>
      point_within B (clientX, clientY)
  | TouchStart touches | TouchMove touches =>
      event_within B (TouchEvent touches)
  | Layout c => canvas_within B c
  | _ => True
  end.

(** The coordinates the state holds: the pan offset, the anchor of the
    pan and the corner of the canvas. *)
Definition session_within (B : Q) (s : Session) : Prop :=
  point_within B (panOffset (editor s)) ∧ point_within B (panStart s) ∧
  canvas_within B (canvasRef (editor s)).

(** Pointer moves, of the mouse or of a touch. *)
Definition isMove (i : Input) : bool :=
  match i with
  | MouseMove _ _ | TouchMove _ => true
  | _ => false
  end.

(** The mouse moves through a list of pointer positions. *)
Definition mouseMoves (pts : list (Q * Q)) : list Input :=
  (λ p, MouseMove p.1 p.2) <$> pts.

(** The cell each pointer sample of a stroke falls on, where it falls on
    the canvas. *)
Definition strokeCells (ed : Editor) (samples : list (Q * Q))
    : list (Z * Z) :=
  omap (λ p, xy ← getCanvasCoordinates ed p.1 p.2;
             if out_of_canvas xy.1 xy.2 then None else Some xy) samples.

(** The grid of the right shape that holds [f x y] at [(x, y)]. *)
Definition gridOf (f : Z → Z → Cell) : Grid :=
  Js.make CANVAS_HEIGHT (λ y, Js.make CANVAS_WIDTH (λ x, f x y)).

(** Two 3 x 3 blocks of "stone", at (2, 2) and at (10, 2), with "air"
    between and around them: the grid that [twoBlocks] paints. *)
Definition twoBlocksGrid : Grid :=
  gridOf (λ x y,
    if ((2 <=? x) && (x <? 5) || (10 <=? x) && (x <? 13))
       && (2 <=? y) && (y <? 5)
    then {| blockId := "stone" |} else air).

(** A grid of "air" with one "stone", at (5, 5). *)
Definition oneStone : Grid :=
  gridOf (λ x y, if (x =? 5) && (y =? 5) then {| blockId := "stone" |}
                 else air).

(** The editor as it starts, with the canvas mounted at (10, 20) and the
    given tool. *)
Definition mounted (t : Tool) : Session :=
  setTool t (initialSession (block "stone")
               (Some {| rect_left := 10; rect_top := 20 |})).

(** A session: a fill, a pan drag, a wheel turn, a brush stroke on the
    panned view, a template and a clear. *)
Definition sampleRun : list Input :=
  [SelectTool fill; MouseDown 0 false 34 28; MouseUp;
   MouseDown 1 false 100 100; MouseMove 130 90; MouseUp;
   Zoom (Wheel 1); SelectTool brush;
   MouseDown 0 false 200 150; MouseMove 216 150; MouseUp;
   LoadTemplate Sword; TouchStart [(60%Q, 60%Q)]; TouchEnd; Clear].

(** * Properties *)

(** ** Arrays and well-formed grids *)

Lemma out_of_canvas_false x y : out_of_canvas x y = false ↔ in_canvas x y.
Proof. unfold out_of_canvas, in_canvas. lia. Qed.

Lemma out_of_canvas_true x y : out_of_canvas x y = true ↔ ¬ in_canvas x y.
Proof. unfold out_of_canvas, in_canvas. lia. Qed.

Section ArrayFacts.
Context {A : Type}.

Lemma make_lookup (n : Z) (f : Z → A) (i : Z) :
  arr_props (Js.make n f) !! i = if decide (0 ≤ i < n) then Some (f i) else None.
Proof.
  unfold Js.make; simpl.
  assert (Hfst : ((λ i, (i, f i)) <$> seqZ 0 n).*1 = seqZ 0 n).
  { rewrite <- list_fmap_compose. apply list_fmap_id. }
  case_decide as Hi.
  - apply elem_of_list_to_map.
    + rewrite Hfst. apply NoDup_seqZ.
    + apply list_elem_of_fmap. exists i. split; [done|].
      apply elem_of_seqZ. lia.
  - apply not_elem_of_list_to_map. rewrite Hfst.
    rewrite elem_of_seqZ. lia.
Qed.

Lemma elements_all (a : JsArray A) :
  (∀ i, is_Some (arr_props a !! i) → 0 ≤ i < arr_length a) →
  Js.elements a = arr_props a.
Proof.
  intros Hdom. unfold Js.elements. apply map_filter_id.
  intros i v Hi. simpl. apply Hdom. eauto.
Qed.
End ArrayFacts.

Lemma spread_wf_row r : wf_row r → Js.spread r = r.
Proof.
  intros [Hlen Hdom]. destruct r as [len props]; simpl in *.
  unfold Js.spread; simpl. f_equal.
  apply elements_all; simpl. intros i Hi. rewrite Hlen. by apply Hdom.
Qed.

Lemma copyGrid_wf g : wf_grid g → copyGrid g = g.
Proof.
  intros (Hlen & Hdom & Hrows). destruct g as [len props]; simpl in *.
  unfold copyGrid, Js.map; simpl. f_equal.
  rewrite elements_all by (simpl; intros i Hi; rewrite Hlen; by apply Hdom).
  simpl. apply map_eq. intros y. rewrite lookup_fmap.
  destruct (props !! y) as [r|] eqn:Hr; simpl; [|done].
  f_equal. apply spread_wf_row. eauto.
Qed.

Lemma wf_row_make : wf_row (Js.make CANVAS_WIDTH (λ _, air)).
Proof.
  split; [done|]. intros x. rewrite make_lookup.
  case_decide; split; intros H'; first [done | lia | by destruct H'].
Qed.

Lemma wf_emptyGrid : wf_grid emptyGrid.
Proof.
  split; [done|]. split.
  - intros y. unfold emptyGrid. rewrite make_lookup.
    case_decide; split; intros H'; first [done | lia | by destruct H'].
  - intros y r. unfold emptyGrid. rewrite make_lookup.
    case_decide; [|done]. intros [= <-]. apply wf_row_make.
Qed.

Lemma wf_cellAt g x y : wf_grid g → in_canvas x y → is_Some (cellAt g x y).
Proof.
  intros (_ & Hdom & Hrows) [Hx Hy]. unfold cellAt, Js.get.
  destruct (proj2 (Hdom y) Hy) as [r Hr]. rewrite Hr; simpl.
  destruct (Hrows _ _ Hr) as [_ Hrdom]. by apply Hrdom.
Qed.

Lemma cellAt_in_canvas g x y :
  wf_grid g → is_Some (cellAt g x y) → in_canvas x y.
Proof.
  intros (_ & Hdom & Hrows) [c Hc]. unfold cellAt, Js.get in Hc.
  destruct (arr_props g !! y) as [r|] eqn:Hr; simpl in Hc; [|done].
  split.
  - destruct (Hrows _ _ Hr) as [_ Hrdom]. apply Hrdom. eauto.
  - apply Hdom. eauto.
Qed.

(** An in-range store: the cell is replaced, nothing else moves, and the
    grid keeps its shape. *)
Lemma storeCell_wf g x y c :
  wf_grid g → in_canvas x y →
  ∃ g', storeCell g x y c = Done g' ∧ wf_grid g' ∧
        cellAt g' x y = Some c ∧
        ∀ x' y', (x', y') ≠ (x, y) → cellAt g' x' y' = cellAt g x' y'.
Proof.
  intros (Hlen & Hdom & Hrows) [Hx Hy]. unfold storeCell, Js.get.
  destruct (proj2 (Hdom y) Hy) as [r Hr]. rewrite Hr.
  destruct (Hrows _ _ Hr) as [Hrlen Hrdom].
  assert (Hset : Js.set r x c =
                 {| arr_length := arr_length r;
                    arr_props := <[x := c]> (arr_props r) |}).
  { unfold Js.set. rewrite Hrlen.
    replace (CANVAS_WIDTH <=? x) with false by (unfold CANVAS_WIDTH in *; lia).
    by rewrite andb_false_r. }
  rewrite Hset. eexists. split; [done|]. split; [|split].
  - split; [done|]. simpl. split.
    + intros y'. destruct (decide (y = y')) as [<-|Hne].
      * rewrite lookup_insert_eq. split; [done | eauto].
      * rewrite lookup_insert_ne by done. apply Hdom.
    + intros y' r'. destruct (decide (y = y')) as [<-|Hne].
      * rewrite lookup_insert_eq. intros [= <-].
        split; [done|]. simpl. intros x'.
        destruct (decide (x = x')) as [<-|Hnx].
        -- rewrite lookup_insert_eq. split; [done | eauto].
        -- rewrite lookup_insert_ne by done. apply Hrdom.
      * rewrite lookup_insert_ne by done. apply Hrows.
  - unfold cellAt, Js.get; simpl. rewrite lookup_insert_eq; simpl.
    by rewrite lookup_insert_eq.
  - intros x' y' Hne. unfold cellAt, Js.get; simpl.
    destruct (decide (y = y')) as [<-|Hny].
    + rewrite lookup_insert_eq, Hr; simpl.
      rewrite lookup_insert_ne; [done|]. congruence.
    + by rewrite lookup_insert_ne.
Qed.

(** ** The loop of floodFill *)

Lemma blockAt_Some g x y t :
  blockAt g x y = Some t ↔ ∃ c, cellAt g x y = Some c ∧ blockId c = t.
Proof.
  unfold blockAt. destruct (cellAt g x y) as [c|]; simpl; split.
  - intros [= <-]. eauto.
  - intros (c' & [= <-] & <-). done.
  - done.
  - intros (c' & ? & _). done.
Qed.

Lemma filter_length_le {A} (P Q : A → Prop)
    `{!∀ x, Decision (P x)} `{!∀ x, Decision (Q x)} (l : list A) :
  (∀ x, x ∈ l → Q x → P x) →
  (length (filter Q l) ≤ length (filter P l))%nat.
Proof.
  induction l as [|b l IH]; intros Hsub; [done|].
  rewrite !filter_cons.
  assert (IH' : (length (filter Q l) ≤ length (filter P l))%nat).
  { apply IH. intros x Hx. apply Hsub. by right. }
  destruct (decide (Q b)) as [HQ|HQ]; destruct (decide (P b)) as [HP|HP];
    simpl; try lia.
  exfalso. apply HP, Hsub; [left | done].
Qed.

Lemma filter_length_lt {A} (P Q : A → Prop)
    `{!∀ x, Decision (P x)} `{!∀ x, Decision (Q x)} (l : list A) (a : A) :
  a ∈ l → (∀ x, x ∈ l → Q x → P x) → P a → ¬ Q a →
  (length (filter Q l) < length (filter P l))%nat.
Proof.
  induction l as [|b l IH]; intros Ha Hsub HPa HQa; [by inversion Ha|].
  rewrite !filter_cons.
  assert (Hsub' : ∀ x, x ∈ l → Q x → P x).
  { intros x Hx. apply Hsub. by right. }
  pose proof (filter_length_le P Q l Hsub') as Hle.
  apply elem_of_cons in Ha as [<-|Ha].
  - destruct (decide (Q a)); [done|]. destruct (decide (P a)); [|done].
    simpl. lia.
  - specialize (IH Ha Hsub' HPa HQa).
    destruct (decide (Q b)) as [HQ|HQ]; destruct (decide (P b)) as [HP|HP];
      simpl; try lia.
    exfalso. apply HP, Hsub; [left | done].
Qed.

Lemma filter_all {A} (P : A → Prop) `{!∀ x, Decision (P x)} (l : list A) :
  (∀ x, x ∈ l → P x) → filter P l = l.
Proof.
  induction l as [|b l IH]; intros Hall; [done|].
  rewrite filter_cons, decide_True by (apply Hall; left).
  f_equal. apply IH. intros x Hx. apply Hall. by right.
Qed.

Lemma filter_length_S {A} (P Q : A → Prop)
    `{!∀ x, Decision (P x)} `{!∀ x, Decision (Q x)} (l : list A) (a : A) :
  NoDup l → a ∈ l → (∀ x, x ∈ l → x ≠ a → (Q x ↔ P x)) → P a → ¬ Q a →
  length (filter P l) = S (length (filter Q l)).
Proof.
  induction l as [|b l IH]; intros Hnd Ha Hsame HPa HQa; [by inversion Ha|].
  apply NoDup_cons in Hnd as [Hb Hnd].
  rewrite !filter_cons.
  apply elem_of_cons in Ha as [<-|Ha].
  - destruct (decide (P a)); [|done]. destruct (decide (Q a)); [done|].
    simpl. f_equal.
    assert (Hiff : ∀ x, x ∈ l → (Q x ↔ P x)).
    { intros x Hx. apply Hsame; [by right|]. by intros ->. }
    apply Nat.le_antisymm; apply filter_length_le; intros x Hx;
      by apply Hiff.
  - assert (Hba : b ≠ a) by (by intros ->).
    assert (IH' : length (filter P l) = S (length (filter Q l))).
    { apply IH; try done. intros x Hx. apply Hsame. by right. }
    assert (Hb' : Q b ↔ P b) by (apply Hsame; [by left | done]).
    destruct (decide (P b)) as [HP|HP]; destruct (decide (Q b)) as [HQ|HQ];
      simpl; try lia; tauto.
Qed.

Lemma NoDup_list_prod {A B} (l1 : list A) (l2 : list B) :
  NoDup l1 → NoDup l2 → NoDup (list_prod l1 l2).
Proof.
  intros H1 H2. induction H1 as [|a l1 Ha H1 IH]; simpl; [constructor|].
  apply NoDup_app. split; [|split; [|done]].
  - apply NoDup_ListNoDup, Finite.Injective_map_NoDup;
      [by intros ?? [= ->] | by apply NoDup_ListNoDup].
  - intros [a' b] Hin1 Hin2.
    apply list_elem_of_In, in_map_iff in Hin1 as (b' & [= <- <-] & _).
    apply list_elem_of_In, in_prod_iff in Hin2 as [Hin2 _].
    by apply list_elem_of_In in Hin2.
Qed.

Lemma NoDup_canvasCells : NoDup canvasCells.
Proof. apply NoDup_list_prod; apply NoDup_seqZ. Qed.

Lemma elem_of_canvasCells x y : (x, y) ∈ canvasCells ↔ in_canvas x y.
Proof.
  unfold canvasCells, in_canvas. rewrite list_elem_of_In, in_prod_iff.
  rewrite <- !list_elem_of_In, !elem_of_seqZ. lia.
Qed.

Lemma length_canvasCells :
  length canvasCells = Z.to_nat (CANVAS_WIDTH * CANVAS_HEIGHT).
Proof. unfold canvasCells. rewrite length_prod, !length_seqZ. reflexivity. Qed.

Lemma targetCount_le g t :
  (targetCount g t ≤ Z.to_nat (CANVAS_WIDTH * CANVAS_HEIGHT))%nat.
Proof.
  unfold targetCount. rewrite <- length_canvasCells. apply length_filter.
Qed.

Section FloodLoop.
Variables target repl : string.

Lemma floodLoop_nil fuel g : floodLoop fuel target repl g [] = Done g.
Proof. by destruct fuel. Qed.

Lemma floodLoop_unfold g x y rest :
  wf_grid g →
  ∃ g' stack', iteration target repl g x y rest g' stack' ∧ wf_grid g' ∧
    ∀ fuel, floodLoop (S fuel) target repl g ((x, y) :: rest) =
            floodLoop fuel target repl g' stack'.
Proof.
  intros Hwf. simpl.
  destruct (out_of_canvas x y) eqn:Hout.
  { apply out_of_canvas_true in Hout. exists g, rest.
    split; [by constructor | done]. }
  apply out_of_canvas_false in Hout.
  destruct (wf_cellAt g x y Hwf Hout) as [c Hc]. rewrite Hc.
  destruct (String.eqb (blockId c) target) eqn:Heq; simpl.
  - apply String.eqb_eq in Heq.
    destruct (storeCell_wf g x y {| blockId := repl |} Hwf Hout)
      as (g' & -> & Hwf' & Hxy & Hother).
    exists g', ((x, y - 1) :: (x, y + 1) :: (x - 1, y) :: (x + 1, y) :: rest).
    split; [|done]. apply iter_fill; try done.
    apply blockAt_Some. eauto.
  - apply String.eqb_neq in Heq. exists g, rest.
    split; [|done]. apply iter_other; [done|].
    rewrite blockAt_Some. intros (c' & Hc' & <-). congruence.
Qed.

(** Loop invariants: a property of grid and stack kept by every
    iteration holds, with the stack empty, when the loop ends. *)
Lemma floodLoop_invariant (P : Grid → list (Z * Z) → Prop) :
  (∀ g x y rest g' stack',
      wf_grid g → P g ((x, y) :: rest) →
      iteration target repl g x y rest g' stack' → P g' stack') →
  ∀ fuel g stack g',
    wf_grid g → P g stack →
    floodLoop fuel target repl g stack = Done g' →
    wf_grid g' ∧ P g' [].
Proof.
  intros Hstep fuel. induction fuel as [|fuel IH]; intros g stack g' Hwf HP.
  - destruct stack as [|[x y] rest]; simpl; [|done].
    intros [= <-]. done.
  - destruct stack as [|[x y] rest]; [simpl; intros [= <-]; done|].
    destruct (floodLoop_unfold g x y rest Hwf)
      as (g1 & stack1 & Hit & Hwf1 & Hunf).
    rewrite Hunf.
    intros Hrun. apply (IH g1 stack1 g' Hwf1); [|done].
    apply (Hstep g x y rest g1 stack1 Hwf HP Hit).
Qed.

Hypothesis target_repl : target ≠ repl.

Lemma iteration_measure g x y rest g' stack' :
  wf_grid g → iteration target repl g x y rest g' stack' →
  (4 * targetCount g' target + length stack'
     < 4 * targetCount g target + length ((x, y) :: rest))%nat.
Proof.
  intros Hwf [Hout|Hin Hne|g1 Hin Ht Hwf1 Hxy Hother]; simpl; try lia.
  assert (targetCount g1 target < targetCount g target)%nat; [|lia].
  apply (filter_length_lt _ _ _ (x, y)).
  - by apply elem_of_canvasCells.
  - intros [x' y'] _. unfold holds, blockAt; simpl.
    destruct (decide ((x', y') = (x, y))) as [[= -> ->]|Hne].
    + rewrite Hxy. simpl. congruence.
    + by rewrite Hother.
  - done.
  - unfold holds, blockAt; simpl. rewrite Hxy. simpl. congruence.
Qed.

(** The loop ends: every iteration lowers four times the number of
    cells that still hold the target plus the height of the stack, so
    that many iterations empty the stack. *)
Lemma floodLoop_terminates fuel g stack :
  wf_grid g →
  (4 * targetCount g target + length stack ≤ fuel)%nat →
  ∃ g', floodLoop fuel target repl g stack = Done g'.
Proof.
  revert g stack. induction fuel as [|fuel IH]; intros g stack Hwf Hfuel.
  - destruct stack; simpl in *; [eauto | lia].
  - destruct stack as [|[x y] rest]; [simpl; eauto|].
    destruct (floodLoop_unfold g x y rest Hwf)
      as (g1 & stack1 & Hit & Hwf1 & Hunf).
    rewrite Hunf.
    apply IH; [done|].
    pose proof (iteration_measure _ _ _ _ _ _ Hwf Hit). lia.
Qed.

(** Every iteration lowers the measure by exactly one: a skipped pop
    takes one entry off the stack, an overwrite takes one cell off the
    count and leaves three more entries on the stack. *)
Lemma iteration_measure_exact g x y rest g' stack' :
  wf_grid g → iteration target repl g x y rest g' stack' →
  (4 * targetCount g' target + length stack' + 1
     = 4 * targetCount g target + length ((x, y) :: rest))%nat.
Proof.
  intros Hwf [Hout|Hin Hne|g1 Hin Ht Hwf1 Hxy Hother]; simpl; try lia.
  assert (targetCount g target = S (targetCount g1 target)); [|lia].
  apply (filter_length_S _ _ _ (x, y)).
  - apply NoDup_canvasCells.
  - by apply elem_of_canvasCells.
  - intros [x' y'] _ Hne. unfold holds, blockAt; simpl. by rewrite Hother.
  - done.
  - unfold holds, blockAt; simpl. rewrite Hxy. simpl. congruence.
Qed.

(** The number of iterations of a run: the measure at its start less
    the measure at its end, that is, four for each cell that stopped
    holding the target, and the initial height of the stack.  A cell is
    therefore overwritten once at most. *)
Lemma floodLoop_iterations fuel g stack g' :
  wf_grid g →
  floodLoop fuel target repl g stack = Done g' →
  ∃ n, (n + 4 * targetCount g' target
          = 4 * targetCount g target + length stack)%nat ∧
       (n ≤ fuel)%nat ∧
       floodLoop n target repl g stack = Done g' ∧
       ∀ m, (m < n)%nat → floodLoop m target repl g stack = OutOfFuel.
Proof.
  revert g stack. induction fuel as [|fuel IH]; intros g stack Hwf.
  - destruct stack as [|[x y] rest]; simpl; [|done].
    intros [= <-]. exists 0%nat. repeat split; try done; lia.
  - destruct stack as [|[x y] rest].
    { simpl. intros [= <-]. exists 0%nat. repeat split; try done; lia. }
    destruct (floodLoop_unfold g x y rest Hwf)
      as (g1 & stack1 & Hit & Hwf1 & Hunf).
    rewrite Hunf. intros Hrun.
    destruct (IH g1 stack1 Hwf1 Hrun) as (n & Hn & Hle & Hdone & Hless).
    pose proof (iteration_measure_exact _ _ _ _ _ _ Hwf Hit) as Hm.
    exists (S n). split; [lia|]. split; [lia|]. split.
    + by rewrite Hunf.
    + intros [|m] Hlt; [done|]. rewrite Hunf. apply Hless. lia.
Qed.

(** More iterations allowed than needed change nothing. *)
Lemma floodLoop_fuel_mono fuel fuel' g stack g' :
  (fuel ≤ fuel')%nat →
  floodLoop fuel target repl g stack = Done g' →
  floodLoop fuel' target repl g stack = Done g'.
Proof.
  revert fuel' g stack. induction fuel as [|fuel IH]; intros fuel' g stack Hle.
  - destruct stack as [|[x y] rest]; simpl; [|done].
    intros [= <-]. apply floodLoop_nil.
  - destruct fuel' as [|fuel']; [lia|].
    destruct stack as [|[x y] rest]; [done|]. simpl.
    destruct (out_of_canvas x y); [apply IH; lia|].
    destruct (cellAt g x y) as [c|]; [|done].
    destruct (negb (String.eqb (blockId c) target)); [apply IH; lia|].
    destruct (storeCell g x y _); [apply IH; lia|done..].
Qed.
End FloodLoop.

(** ** The invariant of the fill *)

Lemma connected_holds g t s p :
  connected g t s p → in_canvas p.1 p.2 ∧ blockAt g p.1 p.2 = Some t.
Proof. by intros [|]. Qed.

Section FloodInvariant.
Variables (g0 : Grid) (target repl : string) (start : Z * Z).
Hypothesis target_repl : target ≠ repl.
Hypothesis start_in : in_canvas start.1 start.2.
Hypothesis start_target : blockAt g0 start.1 start.2 = Some target.

Lemma filled_not_target g p :
  filled g0 g target repl p → blockAt g p.1 p.2 ≠ Some target.
Proof. intros [_ Hp]. unfold blockAt. rewrite Hp. simpl. congruence. Qed.

Lemma flood_inv_init : flood_inv g0 target repl start g0 [start].
Proof.
  split.
  - by left.
  - intros q ->%list_elem_of_singleton _ _. by constructor.
  - left. by apply list_elem_of_singleton.
  - intros p q Hp. pose proof (filled_not_target _ _ Hp) as Hn.
    by destruct Hp.
Qed.

Lemma unfilled_target g stack p :
  flood_inv g0 target repl start g stack →
  blockAt g p.1 p.2 = Some target → blockAt g0 p.1 p.2 = Some target.
Proof.
  intros Hinv Hp. destruct (inv_cells _ _ _ _ _ _ Hinv p) as [Heq|[Hf _]].
  - unfold blockAt in *. by rewrite <- Heq.
  - by apply filled_not_target in Hf.
Qed.

Lemma flood_inv_step g x y rest g' stack' :
  flood_inv g0 target repl start g ((x, y) :: rest) →
  iteration target repl g x y rest g' stack' →
  flood_inv g0 target repl start g' stack'.
Proof.
  intros Hinv Hit.
  assert (Hpop : ∀ q, q ∈ (x, y) :: rest → in_canvas q.1 q.2 →
                      blockAt g q.1 q.2 = Some target →
                      q = (x, y) ∨ q ∈ rest).
  { intros q Hq _ _. by apply elem_of_cons in Hq. }
  destruct Hit as [Hout|Hin Hne|g1 Hin Ht Hwf1 Hxy Hother].
  - (* popped coordinate outside the canvas *)
    split.
    + apply Hinv.
    + intros q Hq. apply Hinv. by right.
    + destruct (inv_start _ _ _ _ _ _ Hinv) as [Hs|Hs]; [|by right].
      apply elem_of_cons in Hs as [->|Hs]; [by destruct Hout | by left].
    + intros p q Hp Hadj Hq Hqt.
      pose proof (inv_front _ _ _ _ _ _ Hinv p q Hp Hadj Hq Hqt) as Hmem.
      apply elem_of_cons in Hmem as [->|Hmem]; [by destruct Hout | done].
  - (* popped cell does not hold the target *)
    split.
    + apply Hinv.
    + intros q Hq. apply Hinv. by right.
    + destruct (inv_start _ _ _ _ _ _ Hinv) as [Hs|Hs]; [|by right].
      apply elem_of_cons in Hs as [->|Hs]; [|by left].
      right. destruct (inv_cells _ _ _ _ _ _ Hinv (x, y)) as [Heq|[Hf _]];
        [|done].
      exfalso. apply Hne. unfold blockAt in *. simpl in *. by rewrite Heq.
    + intros p q Hp Hadj Hq Hqt.
      pose proof (inv_front _ _ _ _ _ _ Hinv p q Hp Hadj Hq Hqt) as Hmem.
      apply elem_of_cons in Hmem as [->|Hmem]; [by destruct Hne | done].
  - (* popped cell holds the target: it is overwritten *)
    assert (Ht0 : blockAt g0 x y = Some target).
    { apply (unfilled_target g _ (x, y) Hinv Ht). }
    assert (Hconn : connected g0 target start (x, y)).
    { apply (inv_stack _ _ _ _ _ _ Hinv); [by left | done..]. }
    assert (Hfxy : filled g0 g1 target repl (x, y)) by done.
    assert (Hkeep : ∀ p, p ≠ (x, y) →
              filled g0 g target repl p ↔ filled g0 g1 target repl p).
    { intros [px py] Hp. unfold filled. simpl. by rewrite Hother. }
    split.
    + intros [px py]. destruct (decide ((px, py) = (x, y))) as [->|Hp].
      * by right.
      * destruct (inv_cells _ _ _ _ _ _ Hinv (px, py)) as [Heq|[Hf Hc]].
        -- left. simpl in *. by rewrite Hother.
        -- right. split; [by apply Hkeep | done].
    + intros q Hq Hqin Hqt.
      assert (Hnb : adjacent (x, y) q → connected g0 target start q).
      { intros Hadj. by apply (connected_step _ _ _ (x, y)). }
      repeat (apply elem_of_cons in Hq as [->|Hq];
              [apply Hnb; unfold adjacent; simpl; tauto|]).
      apply (inv_stack _ _ _ _ _ _ Hinv); [by right | done..].
    + destruct (decide (start = (x, y))) as [->|Hs]; [by right|].
      destruct (inv_start _ _ _ _ _ _ Hinv) as [Hmem|Hf].
      * left. apply elem_of_cons in Hmem as [?|Hmem]; [done|].
        by do 4 right.
      * right. by apply Hkeep.
    + intros p q Hp Hadj Hq Hqt.
      assert (Hqxy : q ≠ (x, y)).
      { intros ->. by apply filled_not_target in Hfxy. }
      destruct (decide (p = (x, y))) as [->|Hpxy].
      * destruct Hadj as [-> | [-> | [-> | ->]]]; simpl;
          [do 3 right; by left | do 2 right; by left | right; by left
          | by left].
      * do 4 right.
        assert (Hqt' : blockAt g q.1 q.2 = Some target).
        { unfold blockAt in *. destruct q as [qx qy]. simpl in *.
          by rewrite <- Hother. }
        apply Hkeep in Hp; [|done].
        pose proof (inv_front _ _ _ _ _ _ Hinv p q Hp Hadj Hq Hqt') as Hmem.
        by apply elem_of_cons in Hmem as [?|Hmem].
Qed.

(** When the stack is empty: the region is filled, and only it. *)
Lemma flood_inv_region g p :
  flood_inv g0 target repl start g [] →
  connected g0 target start p → filled g0 g target repl p.
Proof.
  intros Hinv Hc. induction Hc as [Hin Ht|p q Hc IH Hadj Hq Hqt].
  - destruct (inv_start _ _ _ _ _ _ Hinv) as [Hmem|Hf]; [|done].
    by apply elem_of_nil in Hmem.
  - destruct (inv_cells _ _ _ _ _ _ Hinv q) as [Heq|[Hf _]]; [|done].
    exfalso.
    assert (Hqt' : blockAt g q.1 q.2 = Some target).
    { unfold blockAt in *. by rewrite Heq. }
    pose proof (inv_front _ _ _ _ _ _ Hinv p q IH Hadj Hq Hqt') as Hmem.
    by apply elem_of_nil in Hmem.
Qed.
End FloodInvariant.

(** ** floodFill *)

Lemma enoughFuel_bound g t :
  (4 * targetCount g t + 1 ≤ enoughFuel)%nat.
Proof.
  pose proof (targetCount_le g t) as Hle. unfold enoughFuel.
  change (CANVAS_WIDTH * CANVAS_HEIGHT) with 3072 in *. lia.
Qed.

(** A fill that passes the early exit runs the loop on the grid itself
    (the copy of a well-formed grid is equal to it), ends within
    [4 * targetCount + 1] iterations, and ends in a state that satisfies
    the invariant with the stack empty. *)
Lemma floodFill_loop fuel tl sel sx sy g target :
  wf_grid g → in_canvas sx sy → blockAt g sx sy = Some target →
  target ≠ replacementOf tl sel →
  (4 * targetCount g target + 1 ≤ fuel)%nat →
  ∃ g', floodFill fuel tl sel sx sy g = Done g' ∧ wf_grid g' ∧
        flood_inv g target (replacementOf tl sel) (sx, sy) g' [].
Proof.
  intros Hwf Hin Ht Hne Hfuel.
  apply blockAt_Some in Ht as (c & Hc & <-).
  unfold floodFill. rewrite Hc. fold (replacementOf tl sel).
  apply String.eqb_neq in Hne as Hneb. rewrite Hneb.
  rewrite (copyGrid_wf g Hwf).
  destruct (floodLoop_terminates (blockId c) (replacementOf tl sel) Hne
              fuel g [(sx, sy)] Hwf) as [g' Hrun]; [simpl; lia|].
  exists g'. split; [done|].
  apply (floodLoop_invariant (blockId c) (replacementOf tl sel)
           (flood_inv g (blockId c) (replacementOf tl sel) (sx, sy)))
    with (fuel := fuel) (g := g) (stack := [(sx, sy)]); try done.
  - intros g1 x y rest g2 stack2 _ Hinv Hit.
    apply (flood_inv_step g (blockId c) (replacementOf tl sel) (sx, sy) Hne)
      with (g := g1) (x := x) (y := y) (rest := rest); try done.
    apply blockAt_Some. eauto.
  - apply flood_inv_init; [done..|]. apply blockAt_Some. eauto.
Qed.

Lemma floodFill_same fuel tl sel sx sy g :
  blockAt g sx sy = Some (replacementOf tl sel) →
  floodFill fuel tl sel sx sy g = Done g.
Proof.
  intros (c & Hc & Hid)%blockAt_Some. unfold floodFill. rewrite Hc.
  fold (replacementOf tl sel). by rewrite Hid, String.eqb_refl.
Qed.

(** Allowing more iterations than a fill needs does not change what it
    gives. *)
Lemma floodFill_fuel_mono fuel fuel' tl sel sx sy g g' :
  (fuel ≤ fuel')%nat →
  floodFill fuel tl sel sx sy g = Done g' →
  floodFill fuel' tl sel sx sy g = Done g'.
Proof.
  intros Hle. unfold floodFill.
  destruct (cellAt g sx sy) as [c|]; [|done].
  destruct (String.eqb _ _); [done|]. by apply floodLoop_fuel_mono.
Qed.

(** C6: a fill whose start cell already holds the replacement identifier
    is a no-op: floodFill leaves the grid state as it is, whatever the
    number of iterations allowed. *)
Theorem floodFill_early_exit fuel tl sel sx sy g :
  wf_grid g → in_canvas sx sy →
  blockAt g sx sy = Some (replacementOf tl sel) →
  floodFill fuel tl sel sx sy g = Done g.
Proof. intros _ _. apply floodFill_same. Qed.

(** C7: floodFill terminates on every well-formed grid and in-bounds
    start.  With [n] the number of cells holding the start cell's
    identifier, the loop empties its stack within [4 * n + 1] iterations,
    at most [4 * 3072 + 1]; and a fill that passes the early exit runs
    exactly four iterations for each cell it overwrote and one more, so
    that no cell is overwritten twice. *)
Theorem floodFill_terminates tl sel sx sy g target :
  wf_grid g → in_canvas sx sy → blockAt g sx sy = Some target →
  (4 * targetCount g target + 1 ≤ enoughFuel)%nat ∧
  (∀ fuel, (4 * targetCount g target + 1 ≤ fuel)%nat →
     ∃ g', floodFill fuel tl sel sx sy g = Done g') ∧
  (∀ fuel g', target ≠ replacementOf tl sel →
     floodFill fuel tl sel sx sy g = Done g' →
     ∃ n, (n + 4 * targetCount g' target
             = 4 * targetCount g target + 1)%nat ∧
          (n ≤ fuel)%nat ∧
          ∀ m, (m < n)%nat → floodFill m tl sel sx sy g = OutOfFuel).
Proof.
  intros Hwf Hin Ht. split; [apply enoughFuel_bound|]. split.
  - intros fuel Hfuel.
    destruct (decide (target = replacementOf tl sel)) as [->|Hne].
    + exists g. by apply floodFill_same.
    + destruct (floodFill_loop fuel tl sel sx sy g target) as (g' & ? & _);
        eauto.
  - intros fuel g' Hne. unfold floodFill.
    apply blockAt_Some in Ht as (c & Hc & <-). rewrite Hc.
    fold (replacementOf tl sel).
    apply String.eqb_neq in Hne as Hneb. rewrite Hneb.
    rewrite (copyGrid_wf g Hwf). intros Hrun.
    destruct (floodLoop_iterations _ _ Hne _ _ _ _ Hwf Hrun)
      as (n & Hn & Hle & _ & Hless).
    exists n. simpl in Hn. split; [lia|]. split; [done|]. done.
Qed.

(** C10: floodFill writes only the replacement identifier: every cell of
    the resulting grid holds its original identifier or the
    replacement. *)
Theorem floodFill_only_replacement fuel tl sel sx sy g :
  wf_grid g → in_canvas sx sy → (enoughFuel ≤ fuel)%nat →
  ∃ g', floodFill fuel tl sel sx sy g = Done g' ∧
    ∀ x y, blockAt g' x y = blockAt g x y ∨
           blockAt g' x y = Some (replacementOf tl sel).
Proof.
  intros Hwf Hin Hfuel.
  destruct (wf_cellAt g sx sy Hwf Hin) as [c Hc].
  assert (Ht : blockAt g sx sy = Some (blockId c)).
  { apply blockAt_Some. eauto. }
  destruct (decide (blockId c = replacementOf tl sel)) as [Heq|Hne].
  - exists g. split; [|by left]. apply floodFill_same. by rewrite <- Heq.
  - pose proof (enoughFuel_bound g (blockId c)).
    destruct (floodFill_loop fuel tl sel sx sy g (blockId c))
      as (g' & Hrun & _ & Hinv); try done; [lia|].
    exists g'. split; [done|]. intros x y.
    destruct (inv_cells _ _ _ _ _ _ Hinv (x, y)) as [Heq|[[_ Hf] _]];
      simpl in *; unfold blockAt.
    + left. by rewrite Heq.
    + right. by rewrite Hf.
Qed.

(** C3: region isolation: a cell that no 4-connected path of cells
    holding the start cell's original identifier links to the start cell
    is left as it was. *)
Theorem floodFill_region_isolation fuel tl sel sx sy g target :
  wf_grid g → in_canvas sx sy → blockAt g sx sy = Some target →
  (enoughFuel ≤ fuel)%nat →
  ∃ g', floodFill fuel tl sel sx sy g = Done g' ∧
    ∀ x y, ¬ connected g target (sx, sy) (x, y) →
           cellAt g' x y = cellAt g x y.
Proof.
  intros Hwf Hin Ht Hfuel.
  destruct (decide (target = replacementOf tl sel)) as [->|Hne].
  - exists g. split; [|done]. by apply floodFill_same.
  - pose proof (enoughFuel_bound g target).
    destruct (floodFill_loop fuel tl sel sx sy g target)
      as (g' & Hrun & _ & Hinv); try done; [lia|].
    exists g'. split; [done|]. intros x y Hnc.
    by destruct (inv_cells _ _ _ _ _ _ Hinv (x, y)) as [Heq|[_ Hc]].
Qed.

(** The whole region is filled. *)
Lemma floodFill_region fuel tl sel sx sy g target :
  wf_grid g → in_canvas sx sy → blockAt g sx sy = Some target →
  (enoughFuel ≤ fuel)%nat →
  ∃ g', floodFill fuel tl sel sx sy g = Done g' ∧ wf_grid g' ∧
    ∀ x y, connected g target (sx, sy) (x, y) →
           blockAt g' x y = Some (replacementOf tl sel).
Proof.
  intros Hwf Hin Ht Hfuel.
  destruct (decide (target = replacementOf tl sel)) as [->|Hne].
  - exists g. split; [by apply floodFill_same|]. split; [done|].
    intros x y Hc. by apply connected_holds in Hc as [_ Hc].
  - pose proof (enoughFuel_bound g target).
    destruct (floodFill_loop fuel tl sel sx sy g target)
      as (g' & Hrun & Hwf' & Hinv); try done; [lia|].
    exists g'. split; [done|]. split; [done|]. intros x y Hc.
    assert (filled g g' target (replacementOf tl sel) (x, y)) as [_ Hf]
      by (eapply flood_inv_region; eauto).
    unfold blockAt. simpl in Hf. by rewrite Hf.
Qed.

(** In a grid that holds one identifier everywhere, every cell is linked
    to every other: along the row of the start, then along the column. *)
Lemma uniform_connected g a sx sy x y :
  (∀ x y, in_canvas x y → blockAt g x y = Some a) →
  in_canvas sx sy → in_canvas x y → connected g a (sx, sy) (x, y).
Proof.
  intros Hall Hs Hxy.
  assert (Hrow : ∀ n : nat, ∀ x', Z.abs (x' - sx) = Z.of_nat n →
            in_canvas x' sy → connected g a (sx, sy) (x', sy)).
  { induction n as [|n IH]; intros x' Hd Hin.
    - assert (x' = sx) as -> by lia. constructor; [done | by apply Hall].
    - destruct (decide (sx < x')).
      + apply (connected_step _ _ _ (x' - 1, sy)); simpl.
        * apply IH; [lia|]. unfold in_canvas in *. lia.
        * unfold adjacent; simpl. left. f_equal; lia.
        * done.
        * by apply Hall.
      + apply (connected_step _ _ _ (x' + 1, sy)); simpl.
        * apply IH; [lia|]. unfold in_canvas in *. lia.
        * unfold adjacent; simpl. right; left. f_equal; lia.
        * done.
        * by apply Hall. }
  assert (Hcol : ∀ n : nat, ∀ y', Z.abs (y' - sy) = Z.of_nat n →
            in_canvas x y' → connected g a (sx, sy) (x, y')).
  { induction n as [|n IH]; intros y' Hd Hin.
    - assert (y' = sy) as -> by lia.
      apply (Hrow (Z.to_nat (Z.abs (x - sx)))); [lia | done].
    - destruct (decide (sy < y')).
      + apply (connected_step _ _ _ (x, y' - 1)); simpl.
        * apply IH; [lia|]. unfold in_canvas in *. lia.
        * unfold adjacent; simpl. do 2 right; left. f_equal; lia.
        * done.
        * by apply Hall.
      + apply (connected_step _ _ _ (x, y' + 1)); simpl.
        * apply IH; [lia|]. unfold in_canvas in *. lia.
        * unfold adjacent; simpl. do 3 right. f_equal; lia.
        * done.
        * by apply Hall. }
  apply (Hcol (Z.to_nat (Z.abs (y - sy)))); [lia | done].
Qed.

(** C4: on a grid whose cells all hold [a], a fill with replacement [b]
    from any in-bounds start gives a grid whose 64 x 48 = 3072 cells all
    hold [b]. *)
Theorem floodFill_uniform fuel tl sel sx sy g a b :
  wf_grid g → in_canvas sx sy →
  (∀ x y, in_canvas x y → blockAt g x y = Some a) →
  replacementOf tl sel = b →
  (enoughFuel ≤ fuel)%nat →
  ∃ g', floodFill fuel tl sel sx sy g = Done g' ∧
    (∀ x y, in_canvas x y → blockAt g' x y = Some b) ∧
    Z.of_nat (targetCount g' b) = 3072.
Proof.
  intros Hwf Hin Hall <- Hfuel.
  destruct (floodFill_region fuel tl sel sx sy g a)
    as (g' & Hrun & _ & Hreg); try done; [by apply Hall|].
  assert (Hall' : ∀ x y, in_canvas x y →
            blockAt g' x y = Some (replacementOf tl sel)).
  { intros x y Hxy. apply Hreg. by apply uniform_connected. }
  exists g'. split; [done|]. split; [done|].
  unfold targetCount.
  replace (filter (holds g' (replacementOf tl sel)) canvasCells)
    with canvasCells; [by rewrite length_canvasCells|].
  symmetry. apply filter_all. intros [x y] Hxy.
  apply Hall'. by apply elem_of_canvasCells.
Qed.

(** C5: floodFill is idempotent: a second fill from the same start with
    the same replacement leaves the grid the first fill produced. *)
Theorem floodFill_idempotent fuel tl sel sx sy g :
  wf_grid g → in_canvas sx sy → (enoughFuel ≤ fuel)%nat →
  ∃ g1, floodFill fuel tl sel sx sy g = Done g1 ∧
        floodFill fuel tl sel sx sy g1 = Done g1.
Proof.
  intros Hwf Hin Hfuel.
  destruct (wf_cellAt g sx sy Hwf Hin) as [c Hc].
  assert (Ht : blockAt g sx sy = Some (blockId c)).
  { apply blockAt_Some. eauto. }
  destruct (floodFill_region fuel tl sel sx sy g (blockId c))
    as (g1 & Hrun & _ & Hreg); try done.
  exists g1. split; [done|]. apply floodFill_same, Hreg.
  by constructor.
Qed.

(** ** paintCell *)

Lemma paintCell_store tl sel x y g :
  wf_grid g → tl ≠ fill →
  paintCell tl sel x y g =
  storeCell g x y
    {| blockId := match tl with eraser => "air"%string | _ => id sel end |}.
Proof.
  intros Hwf Htl. unfold paintCell. rewrite (copyGrid_wf g Hwf).
  by destruct tl.
Qed.

(** C9: painting an in-bounds cell with the brush stores the selected
    block's identifier there, with the eraser it stores "air"; the
    painted cell reads back as written and every other cell is
    unchanged. *)
Theorem paintCell_locality sel x y g :
  wf_grid g → in_canvas x y →
  (∃ g', paintCell brush sel x y g = Done g' ∧
     blockAt g' x y = Some (id sel) ∧
     ∀ x' y', (x', y') ≠ (x, y) → cellAt g' x' y' = cellAt g x' y') ∧
  (∃ g', paintCell eraser sel x y g = Done g' ∧
     blockAt g' x y = Some "air"%string ∧
     ∀ x' y', (x', y') ≠ (x, y) → cellAt g' x' y' = cellAt g x' y').
Proof.
  intros Hwf Hin. split.
  - rewrite paintCell_store by done.
    destruct (storeCell_wf g x y {| blockId := id sel |} Hwf Hin)
      as (g' & Hrun & _ & Hxy & Hother).
    exists g'. split; [done|]. split; [|done].
    unfold blockAt. by rewrite Hxy.
  - rewrite paintCell_store by done.
    destruct (storeCell_wf g x y {| blockId := "air" |} Hwf Hin)
      as (g' & Hrun & _ & Hxy & Hother).
    exists g'. split; [done|]. split; [|done].
    unfold blockAt. by rewrite Hxy.
Qed.

(** C1, as stated, fails: paintCell has no bounds check of its own.  On
    the empty grid, a brush stroke at row 48 throws, and one at column 64
    makes row 0 one cell longer. *)
Lemma paintCell_out_of_range_unguarded :
  wf_grid emptyGrid ∧ ¬ in_canvas 0 48 ∧ ¬ in_canvas 64 0 ∧
  paintCell brush (block "stone") 0 48 emptyGrid = TypeError ∧
  paintCell brush (block "stone") 0 48 emptyGrid ≠ Done emptyGrid ∧
  observe (λ g', (arr_length <$> Js.get g' 0, cellAt g' 64 0))
    (paintCell brush (block "stone") 64 0 emptyGrid)
  = Done (Some 65, Some {| blockId := "stone" |}).
Proof.
  assert (Hthrow : paintCell brush (block "stone") 0 48 emptyGrid = TypeError).
  { vm_compute. reflexivity. }
  split; [apply wf_emptyGrid|].
  split; [unfold in_canvas, CANVAS_HEIGHT; lia|].
  split; [unfold in_canvas, CANVAS_WIDTH; lia|].
  split; [exact Hthrow|].
  split; [rewrite Hthrow; discriminate|].
  vm_compute. reflexivity.
Qed.

(** C1, amended: a click whose coordinates fall outside the canvas is
    ignored by handleCanvasClick, the bounds-checking caller: the grid
    state is unchanged and nothing is thrown.  paintCell called directly
    with the same coordinates under the brush or the eraser throws when
    the row is out of range, and otherwise stores the cell under the
    out-of-range column of that row. *)
Theorem handleCanvasClick_out_of_range fuel ed e cx cy x y :
  wf_grid (grid ed) →
  clientPoint e = Some (cx, cy) →
  getCanvasCoordinates ed cx cy = Some (x, y) →
  ¬ in_canvas x y →
  handleCanvasClick fuel ed e = Done (grid ed) ∧
  (tool ed ≠ fill →
   if decide (0 ≤ y < CANVAS_HEIGHT) then
     ∃ g', paintCell (tool ed) (selectedBlock ed) x y (grid ed) = Done g' ∧
           cellAt (grid ed) x y = None ∧ is_Some (cellAt g' x y)
   else paintCell (tool ed) (selectedBlock ed) x y (grid ed) = TypeError).
Proof.
  intros Hwf He Hxy Hout. split.
  - unfold handleCanvasClick. rewrite He, Hxy.
    apply out_of_canvas_true in Hout. by rewrite Hout.
  - intros Htl. rewrite paintCell_store by done.
    destruct Hwf as (Hlen & Hdom & Hrows). unfold storeCell, Js.get.
    case_decide as Hy.
    + destruct (proj2 (Hdom y) Hy) as [r Hr]. rewrite Hr.
      eexists. split; [done|]. unfold cellAt, Js.get. simpl.
      rewrite Hr, lookup_insert_eq. simpl. rewrite lookup_insert_eq.
      split; [|done].
      destruct (Hrows _ _ Hr) as [_ Hrdom].
      apply eq_None_not_Some. intros Hx%Hrdom. by apply Hout.
    + destruct (arr_props (grid ed) !! y) as [r|] eqn:Hr; [|done].
      exfalso. apply Hy, Hdom. eauto.
Qed.

(** ** Rounding *)

Local Open Scope Q_scope.

Lemma round_half_even_close (x : Q) :
  Qabs (inject_Z (round_half_even x) - x) <= 1 # 2.
Proof.
  unfold round_half_even.
  pose proof (Qfloor_le x) as Hlo. pose proof (Qlt_floor x) as Hhi.
  rewrite inject_Z_plus in Hhi. change (inject_Z 1) with 1 in Hhi.
  apply Qabs_Qle_condition.
  destruct (x - inject_Z (Qfloor x) ?= 1 # 2) eqn:Hc.
  - apply Qeq_alt in Hc.
    destruct (Z.even (Qfloor x)); [|rewrite inject_Z_plus; change (inject_Z 1) with 1];
      lra.
  - apply Qlt_alt in Hc. lra.
  - apply Qgt_alt in Hc. rewrite inject_Z_plus. change (inject_Z 1) with 1. lra.
Qed.

Lemma Qdiv_le_compat (a b c d : Q) :
  0 <= a → a <= c → 0 < d → d <= b → a / b <= c / d.
Proof.
  intros Ha Hac Hd Hdb.
  apply Qle_shift_div_r; [lra|].
  assert (Hq : 0 <= c / d) by (apply Qle_shift_div_l; lra).
  assert (Hm : d * (c / d) == c) by (apply Qmult_div_r; lra).
  nra.
Qed.

Lemma Qlog2_le (x : Q) : 0 < x → 2 ^ Qlog2 x <= x.
Proof.
  intros Hx. unfold Qlog2.
  destruct (Qle_bool _ x) eqn:Hk; [by apply Qle_bool_iff|]. clear Hk.
  destruct x as [n d]. simpl Qnum. simpl Qden.
  assert (Hn : (0 < n)%Z).
  { unfold Qlt in Hx. simpl in Hx. lia. }
  pose proof (Z.log2_spec n Hn) as [Hlo _].
  pose proof (Z.log2_spec (Zpos d) eq_refl) as [_ Hhi].
  pose proof (Z.log2_nonneg n). pose proof (Z.log2_nonneg (Zpos d)).
  set (a := Z.log2 n) in *. set (b := Z.log2 (Zpos d)) in *.
  replace (a - b - 1)%Z with (a - Z.succ b)%Z by lia.
  rewrite Qpower_minus by discriminate.
  rewrite <- !(Zpower_Qpower 2) by lia.
  rewrite (Qmake_Qdiv n d).
  apply Qdiv_le_compat.
  - rewrite <- (Zle_Qle 0). lia.
  - rewrite <- Zle_Qle. lia.
  - rewrite <- (Zlt_Qlt 0). lia.
  - rewrite <- Zle_Qle. lia.
Qed.

Lemma Qlog2_lt (x : Q) : 0 < x → x < 2 ^ (Qlog2 x + 1).
Proof.
  intros Hx. unfold Qlog2.
  destruct (Qle_bool _ x) eqn:Hk.
  - clear Hk. destruct x as [n d]. simpl Qnum. simpl Qden.
    assert (Hn : (0 < n)%Z).
    { unfold Qlt in Hx. simpl in Hx. lia. }
    pose proof (Z.log2_spec n Hn) as [_ Hhi].
    pose proof (Z.log2_spec (Zpos d) eq_refl) as [Hlo _].
    pose proof (Z.log2_nonneg n). pose proof (Z.log2_nonneg (Zpos d)).
    set (a := Z.log2 n) in *. set (b := Z.log2 (Zpos d)) in *.
    replace (a - b + 1)%Z with (Z.succ a - b)%Z by lia.
    rewrite Qpower_minus by discriminate.
    rewrite <- !(Zpower_Qpower 2) by lia.
    rewrite (Qmake_Qdiv n d).
    assert (Hd : 0 < inject_Z (Zpos d)) by (by rewrite <- (Zlt_Qlt 0)).
    assert (Hb : 0 < inject_Z (2 ^ b)) by (rewrite <- (Zlt_Qlt 0); lia).
    assert (Hnd : inject_Z (2 ^ b) <= inject_Z (Zpos d))
      by (rewrite <- Zle_Qle; lia).
    assert (Hna : inject_Z n < inject_Z (2 ^ Z.succ a))
      by (rewrite <- Zlt_Qlt; lia).
    assert (Hn0 : 0 < inject_Z n) by (by rewrite <- (Zlt_Qlt 0)).
    apply Qlt_shift_div_l; [done|].
    set (q := inject_Z n / inject_Z (Zpos d)).
    assert (Hq : inject_Z (Zpos d) * q == inject_Z n).
    { apply Qmult_div_r. lra. }
    assert (0 < q) by (apply Qlt_shift_div_l; lra).
    nra.
  - replace (_ - 1 + 1)%Z with (Z.log2 (Qnum x) - Z.log2 (Zpos (Qden x)))%Z
      by lia.
    apply Qnot_le_lt. rewrite <- Qle_bool_iff. congruence.
Qed.

(** The familiar values: [0.1], and [0.1 + 0.2], which is
    [0.30000000000000004]. *)
Example rnd64_tenth :
  Number.lit (1 # 10) = 3602879701896397 # 36028797018963968.
Proof. vm_compute. reflexivity. Qed.

Example rnd64_tenth_plus_fifth :
  Number.add (Number.lit (1 # 10)) (Number.lit (2 # 10))
  = 1351079888211149 # 4503599627370496.
Proof. vm_compute. reflexivity. Qed.

(** Above [2^53] the odd integers are lost: ties go to the even
    significand. *)
Example rnd64_large_odd :
  rnd64 9007199254740993 = 9007199254740992 ∧
  rnd64 9007199254740995 = 9007199254740996.
Proof. split; vm_compute; reflexivity. Qed.

Lemma Qabs_pos_lt (x : Q) : ¬ x == 0 → 0 < Qabs x.
Proof.
  intros Hx. destruct (Qlt_le_dec 0 x) as [Hp|Hn].
  - rewrite Qabs_pos; lra.
  - rewrite Qabs_neg by done.
    destruct (Qle_lt_or_eq _ _ Hn) as [Hlt|Heq]; [lra | done].
Qed.

Lemma half_pow2 (e : Z) : (1 # 2) * 2 ^ e == 2 ^ (e - 1).
Proof.
  rewrite Qpower_minus by discriminate. change (2 ^ 1) with 2.
  unfold Qdiv. change (/ 2) with (1 # 2). ring.
Qed.

(** The standard model of binary64 arithmetic: rounding moves a value by
    at most half a unit in the last place, that is by at most [2^-53] of
    its magnitude, or by [2^-1075] in the subnormal range. *)
Lemma rnd64_close (x : Q) :
  Qabs (rnd64 x - x) <= 2 ^ (-53) * Qabs x + 2 ^ (-1075).
Proof.
  assert (Heta : 0 < 2 ^ (-1075)) by (by apply Qpower_0_lt).
  assert (Heps : 0 < 2 ^ (-53)) by (by apply Qpower_0_lt).
  pose proof (Qabs_nonneg x) as Hax.
  unfold rnd64. destruct (Qeq_bool x 0) eqn:H0.
  { apply Qeq_bool_iff in H0. rewrite H0. change (Qabs (0 - 0)) with 0.
    change (Qabs 0) with 0. lra. }
  assert (Hx : ¬ x == 0).
  { intros Hx. apply Qeq_bool_iff in Hx. congruence. }
  clear H0. rewrite Qred_correct.
  set (e := ulp_exp x).
  assert (He : 0 < 2 ^ e) by (by apply Qpower_0_lt).
  pose proof (round_half_even_close (x / 2 ^ e)) as Hr.
  set (r := inject_Z (round_half_even (x / 2 ^ e))) in *.
  pose proof (half_pow2 e) as Hhp.
  assert (Hsplit : r * 2 ^ e - x == (r - x / 2 ^ e) * 2 ^ e).
  { field. intros Hz. rewrite Hz in He. lra. }
  rewrite Hsplit, Qabs_Qmult, (Qabs_pos (2 ^ e)) by (by apply Qlt_le_weak).
  pose proof (Qlog2_le (Qabs x) (Qabs_pos_lt x Hx)) as Hlog.
  assert (Hcase : 2 ^ (e - 1) <= 2 ^ (-53) * Qabs x + 2 ^ (-1075)).
  { unfold ulp_exp in e.
    destruct (Z.max_spec (Qlog2 (Qabs x) - 52) (-1074)) as [[_ Hm]|[_ Hm]];
      fold e in Hm; rewrite Hm.
    - change (-1074 - 1)%Z with (-1075)%Z.
      set (eta := 2 ^ (-1075)) in *. set (eps := 2 ^ (-53)) in *. nra.
    - replace (Qlog2 (Qabs x) - 52 - 1)%Z with (Qlog2 (Qabs x) + -53)%Z by lia.
      rewrite Qpower_plus by discriminate.
      set (eta := 2 ^ (-1075)) in *. set (eps := 2 ^ (-53)) in *.
      set (pl := 2 ^ Qlog2 (Qabs x)) in *. nra. }
  set (p := 2 ^ e) in *. set (p' := 2 ^ (e - 1)) in *.
  set (d := Qabs (r - x / p)) in *.
  assert (d * p <= p'); [|lra].
  rewrite <- Hhp. nra.
Qed.

(** The same bound with the constants spelled out, for a value of
    magnitude at most [b]. *)
Lemma rnd64_within (x b : Q) :
  Qabs x <= b →
  x - (b * (1 # 9007199254740992) + (1 # 18446744073709551616)) <= rnd64 x ∧
  rnd64 x <= x + (b * (1 # 9007199254740992) + (1 # 18446744073709551616)).
Proof.
  intros Hb. pose proof (rnd64_close x) as Hc.
  assert (Heps : 2 ^ (-53) == 1 # 9007199254740992) by reflexivity.
  assert (Heta : 2 ^ (-1075) <= 1 # 18446744073709551616).
  { vm_compute. discriminate. }
  rewrite Heps in Hc. set (eta := 2 ^ (-1075)) in *.
  apply Qabs_Qle_condition in Hc as [Hlo Hhi].
  pose proof (Qabs_nonneg x). split; nra.
Qed.

Lemma Qabs_le_bounds (x lo hi b : Q) :
  lo <= x → x <= hi → - b <= lo → hi <= b → Qabs x <= b.
Proof. intros. apply Qabs_Qle_condition. split; lra. Qed.

(** ** Zoom *)

Lemma max_spec (a b : Q) :
  a <= Math.max a b ∧ b <= Math.max a b ∧
  (Math.max a b = a ∨ Math.max a b = b).
Proof.
  unfold Math.max. destruct (Qle_bool a b) eqn:Hab.
  - apply Qle_bool_iff in Hab. repeat split; [lra | lra | by right].
  - assert (¬ a <= b) by (rewrite <- Qle_bool_iff; congruence).
    repeat split; [lra | lra | by left].
Qed.

Lemma min_spec (a b : Q) :
  Math.min a b <= a ∧ Math.min a b <= b ∧
  (Math.min a b = a ∨ Math.min a b = b).
Proof.
  unfold Math.min. destruct (Qle_bool a b) eqn:Hab.
  - apply Qle_bool_iff in Hab. repeat split; [lra | lra | by left].
  - assert (¬ a <= b) by (rewrite <- Qle_bool_iff; congruence).
    repeat split; [lra | lra | by right].
Qed.

Lemma handleWheel_clamped (deltaY prev : Q) :
  1 # 4 <= handleWheel deltaY prev ∧ handleWheel deltaY prev <= 5.
Proof.
  unfold handleWheel.
  set (s := Number.add prev _).
  destruct (min_spec 5 s) as (Hm & _ & _).
  destruct (max_spec (1 # 4) (Math.min 5 s)) as (H1 & _ & [He | He]);
    rewrite He in *; split; lra.
Qed.

Lemma zoomOutClick_clamped (z : Q) :
  1 # 4 <= z → z <= 5 →
  1 # 4 <= zoomOutClick z ∧ zoomOutClick z <= 5.
Proof.
  intros Hlo Hhi. unfold zoomOutClick, Number.sub.
  assert (Hb : Qabs (z - (1 # 4)) <= 19 # 4).
  { apply (Qabs_le_bounds _ 0 (19 # 4)); lra. }
  destruct (rnd64_within _ _ Hb) as [_ Hr].
  destruct (max_spec (1 # 4) (rnd64 (z - (1 # 4)))) as (H1 & _ & [He | He]);
    rewrite He in *; split; lra.
Qed.

Lemma zoomInClick_clamped (z : Q) :
  1 # 4 <= z → z <= 5 →
  1 # 4 <= zoomInClick z ∧ zoomInClick z <= 5.
Proof.
  intros Hlo Hhi. unfold zoomInClick, Number.add.
  assert (Hb : Qabs (z + (1 # 4)) <= 21 # 4).
  { apply (Qabs_le_bounds _ (1 # 2) (21 # 4)); lra. }
  destruct (rnd64_within _ _ Hb) as [Hr _].
  destruct (min_spec 5 (rnd64 (z + (1 # 4)))) as (H1 & _ & [He | He]);
    rewrite He in *; split; lra.
Qed.

(** C8: from a zoom in [0.25, 5], no sequence of zoom changes (wheel
    steps of 0.1 either way, button steps of 0.25 either way, and also
    the reset to 1 and the mobile default 0.75) takes the zoom below 0.25
    or above 5. *)
Theorem zoom_clamped (z : Q) (changes : list ZoomChange) :
  1 # 4 <= z → z <= 5 →
  1 # 4 <= fold_left applyZoom changes z ∧
  fold_left applyZoom changes z <= 5.
Proof.
  revert z. induction changes as [|c changes IH]; intros z Hlo Hhi.
  - done.
  - assert (Hstep : 1 # 4 <= applyZoom z c ∧ applyZoom z c <= 5).
    { destruct c as [deltaY| | | |]; simpl.
      - apply handleWheel_clamped.
      - by apply zoomOutClick_clamped.
      - by apply zoomInClick_clamped.
      - split; lra.
      - split; lra. }
    destruct Hstep as [H1 H2]. simpl. by apply IH.
Qed.

(** ** Screen to grid *)

Lemma floor_unique (q : Q) (i : Z) :
  inject_Z i <= q → q < inject_Z i + 1 → Math.floor q = i.
Proof.
  intros Hlo Hhi. unfold Math.floor.
  pose proof (Qfloor_le q) as Hf1. pose proof (Qlt_floor q) as Hf2.
  rewrite inject_Z_plus in Hf2. change (inject_Z 1) with 1 in Hf2.
  assert (H1 : (Qfloor q < i + 1)%Z).
  { rewrite Zlt_Qlt, inject_Z_plus. change (inject_Z 1) with 1. lra. }
  assert (H2 : (i < Qfloor q + 1)%Z).
  { rewrite Zlt_Qlt, inject_Z_plus. change (inject_Z 1) with 1. lra. }
  lia.
Qed.

(** One axis of the transform: a screen coordinate [s] within [1.1] of
    the centre of cell [i] is mapped back to [i]. *)
Lemma axis_roundtrip (s pan z : Q) (i : Z) :
  (0 ≤ i < 64)%Z → 1 # 4 <= z → z <= 5 →
  Qabs (s - ((inject_Z i * 16 + 8) * z + pan)) <= 11 # 10 →
  Math.floor
    (Number.div (Number.sub s pan) (Number.mul (inject_Z CELL_SIZE) z)) = i.
Proof.
  intros Hi Hzlo Hzhi Hs.
  assert (HI0 : 0 <= inject_Z i) by (rewrite <- (Zle_Qle 0); lia).
  assert (HI1 : inject_Z i <= inject_Z 63) by (rewrite <- Zle_Qle; lia).
  change (inject_Z 63) with 63 in HI1.
  set (I := inject_Z i) in *.
  apply Qabs_Qle_condition in Hs as [Hs1 Hs2].
  assert (HIz : 0 <= I * z) by nra.
  assert (HIz' : I * z <= 315) by nra.
  unfold Number.div, Number.sub, Number.mul.
  change (inject_Z CELL_SIZE) with 16.
  assert (Ht : Qabs (s - pan) <= 5082).
  { apply (Qabs_le_bounds _ 0 5082); lra. }
  destruct (rnd64_within _ _ Ht) as [Hd1 Hd2].
  set (d := rnd64 (s - pan)) in *.
  assert (Hw : Qabs (16 * z) <= 80).
  { apply (Qabs_le_bounds _ 4 80); lra. }
  destruct (rnd64_within _ _ Hw) as [Hw1 Hw2].
  set (w := rnd64 (16 * z)) in *.
  assert (Hwpos : 0 < w) by lra.
  assert (Hq1 : I + (1 # 5) <= d / w).
  { apply Qle_shift_div_l; [done|].
    assert (0 <= (I + (1 # 5)) * (16 * z + (1 # 1000000) - w)) by nra.
    nra. }
  assert (Hq2 : d / w <= I + (4 # 5)).
  { apply Qle_shift_div_r; [done|].
    assert (0 <= (I + (4 # 5)) * (w - (16 * z - (1 # 1000000)))) by nra.
    nra. }
  assert (Hq : Qabs (d / w) <= 64).
  { apply (Qabs_le_bounds _ 0 64); lra. }
  destruct (rnd64_within _ _ Hq) as [Hr1 Hr2].
  apply floor_unique; fold I; lra.
Qed.

(** The centre of cell [i] as the expression evaluates lies within
    [1.1] of its exact value as long as the pan offset stays within
    [2^53]. *)
Lemma cellCentre_close (i : Z) (z pan : Q) :
  (0 ≤ i < 64)%Z → 1 # 4 <= z → z <= 5 →
  Qabs pan <= 9007199254740992 →
  Qabs (cellCentre i z pan - ((inject_Z i * 16 + 8) * z + pan)) <= 11 # 10.
Proof.
  intros Hi Hzlo Hzhi Hpan.
  assert (HI0 : 0 <= inject_Z i) by (rewrite <- (Zle_Qle 0); lia).
  assert (HI1 : inject_Z i <= inject_Z 63) by (rewrite <- Zle_Qle; lia).
  change (inject_Z 63) with 63 in HI1.
  unfold cellCentre, Number.add, Number.mul.
  assert (HK : inject_Z (i * CELL_SIZE + 8) == inject_Z i * 16 + 8).
  { rewrite inject_Z_plus, inject_Z_mult. reflexivity. }
  set (K := inject_Z (i * CELL_SIZE + 8)) in *. set (I := inject_Z i) in *.
  apply Qabs_Qle_condition in Hpan as [Hp1 Hp2].
  assert (HIz : 0 <= I * z) by nra.
  assert (HIz' : I * z <= 315) by nra.
  assert (HKz : K * z == 16 * (I * z) + 8 * z) by (rewrite HK; ring).
  assert (Ha : Qabs (K * z) <= 5080).
  { apply (Qabs_le_bounds _ 0 5080); lra. }
  destruct (rnd64_within _ _ Ha) as [Ha1 Ha2].
  set (a := rnd64 (K * z)) in *.
  assert (Hs : Qabs (a + pan) <= 9007199254746073).
  { apply (Qabs_le_bounds _ (- 9007199254740992) 9007199254746073); lra. }
  destruct (rnd64_within _ _ Hs) as [Hs1 Hs2].
  apply Qabs_Qle_condition. split; lra.
Qed.

(** C2, as stated, fails for large pan offsets: with the view panned by
    [2^60] at zoom 1, the centre of the cell in column 1, row 0 is the
    screen point [2^60 + 24]; binary64 values near [2^60] are 256 apart,
    so that point is [2^60] and the transform gives column 0. *)
Lemma getCanvasCoordinates_large_pan :
  let ed := {| grid := emptyGrid; selectedBlock := block "stone";
               tool := brush; zoom := 1;
               panOffset := (1152921504606846976, 0);
               canvasRef := Some {| rect_left := 0; rect_top := 0 |} |} in
  in_canvas 1 0 ∧ 1 # 4 <= zoom ed ∧ zoom ed <= 5 ∧
  cellCentre 1 (zoom ed) (panOffset ed).1 = 1152921504606846976 ∧
  getCanvasCoordinates ed (cellCentre 1 (zoom ed) (panOffset ed).1)
    (cellCentre 0 (zoom ed) (panOffset ed).2) = Some (0, 0)%Z ∧
  getCanvasCoordinates ed (cellCentre 1 (zoom ed) (panOffset ed).1)
    (cellCentre 0 (zoom ed) (panOffset ed).2) ≠ Some (1, 0)%Z.
Proof.
  simpl. split; [unfold in_canvas, CANVAS_WIDTH, CANVAS_HEIGHT; lia|].
  split; [lra|]. split; [lra|]. split; [by vm_compute|].
  split; [by vm_compute|]. by vm_compute.
Qed.

(** C2, amended: for a zoom in [0.25, 5] and a pan offset of magnitude at
    most [2^53] on each axis, the transform maps the centre of every cell
    of the canvas, [(col * 16 + 8) * zoom + panX] and
    [(row * 16 + 8) * zoom + panY] relative to the canvas, back to that
    cell. *)
Theorem getCanvasCoordinates_centre ed rect clientX clientY row col :
  canvasRef ed = Some rect →
  1 # 4 <= zoom ed → zoom ed <= 5 →
  Qabs (panOffset ed).1 <= 9007199254740992 →
  Qabs (panOffset ed).2 <= 9007199254740992 →
  in_canvas col row →
  Number.sub clientX (rect_left rect)
    == cellCentre col (zoom ed) (panOffset ed).1 →
  Number.sub clientY (rect_top rect)
    == cellCentre row (zoom ed) (panOffset ed).2 →
  getCanvasCoordinates ed clientX clientY = Some (col, row).
Proof.
  intros Hc Hzlo Hzhi Hpx Hpy [Hcol Hrow] Hx Hy.
  unfold CANVAS_WIDTH, CANVAS_HEIGHT in *.
  unfold getCanvasCoordinates. rewrite Hc. f_equal. f_equal.
  - apply axis_roundtrip; [lia | done..|].
    rewrite Hx. apply cellCentre_close; [lia | done..].
  - apply axis_roundtrip; [lia | done..|].
    rewrite Hy. apply cellCentre_close; [lia | done..].
Qed.

(** ** Instances on concrete inputs *)

Local Open Scope Z_scope.

Lemma in_canvas_origin : in_canvas 0 0.
Proof. unfold in_canvas, CANVAS_WIDTH, CANVAS_HEIGHT. lia. Qed.

(** Scenario of the specification: on a fresh grid, a brush stroke with
    "stone" at (5, 5) is read back there, and (5, 6) still holds "air". *)
Example paint_stone_scenario :
  observe (λ g', (blockAt g' 5 5, blockAt g' 6 5, blockAt g' 5 6))
    (paintCell brush (block "stone") 5 5 emptyGrid)
  = Done (Some "stone", Some "air", Some "air")%string.
Proof. vm_compute. reflexivity. Qed.

(** Scenario of the specification: a grid of "air" filled from (0, 0)
    with "water" holds "water" in all 3072 cells; the loop takes exactly
    [4 * 3072 + 1] iterations. *)
Example fill_water_scenario :
  observe (λ g', Z.of_nat (targetCount g' "water"))
    (floodFill enoughFuel fill (block "water") 0 0 emptyGrid) = Done 3072 ∧
  floodFill (pred enoughFuel) fill (block "water") 0 0 emptyGrid = OutOfFuel.
Proof. split; vm_compute; reflexivity. Qed.

(** Scenario of the specification: of two 3 x 3 blocks of "stone"
    separated by "air", filling the first with "gold_block" from (3, 3)
    leaves the second untouched. *)
Example two_blocks_scenario :
  observe (λ g', (Z.of_nat (targetCount g' "gold_block"),
                  Z.of_nat (targetCount g' "stone"),
                  [blockAt g' 2 2; blockAt g' 4 4; blockAt g' 5 3;
                   blockAt g' 10 2; blockAt g' 12 4]))
    (andThen twoBlocks (floodFill enoughFuel fill (block "gold_block") 3 3))
  = Done (9, 9,
          [Some "gold_block"; Some "gold_block"; Some "air";
           Some "stone"; Some "stone"]%string).
Proof. vm_compute. reflexivity. Qed.

Lemma floodFill_early_exit_witness :
  wf_grid emptyGrid ∧ in_canvas 0 0 ∧
  blockAt emptyGrid 0 0 = Some (replacementOf eraser (block "stone")) ∧
  floodFill 0 eraser (block "stone") 0 0 emptyGrid = Done emptyGrid.
Proof.
  split; [apply wf_emptyGrid|]. split; [apply in_canvas_origin|].
  split; [(vm_compute; done)|].
  apply (floodFill_early_exit 0 eraser (block "stone") 0 0 emptyGrid).
  - apply wf_emptyGrid.
  - apply in_canvas_origin.
  - (vm_compute; done).
Defined.

Lemma floodFill_terminates_witness :
  wf_grid emptyGrid ∧ in_canvas 0 0 ∧
  blockAt emptyGrid 0 0 = Some "air"%string ∧
  ∃ g', floodFill enoughFuel fill (block "water") 0 0 emptyGrid = Done g'.
Proof.
  split; [apply wf_emptyGrid|]. split; [apply in_canvas_origin|].
  split; [vm_compute; reflexivity|].
  destruct (floodFill_terminates fill (block "water") 0 0 emptyGrid "air")
    as (Hbound & Hrun & _).
  - apply wf_emptyGrid.
  - apply in_canvas_origin.
  - vm_compute; reflexivity.
  - apply Hrun, Hbound.
Defined.

Lemma floodFill_only_replacement_witness :
  wf_grid emptyGrid ∧ in_canvas 0 0 ∧ (enoughFuel ≤ enoughFuel)%nat ∧
  ∃ g', floodFill enoughFuel fill (block "water") 0 0 emptyGrid = Done g' ∧
    ∀ x y, blockAt g' x y = blockAt emptyGrid x y ∨
           blockAt g' x y = Some (replacementOf fill (block "water")).
Proof.
  split; [apply wf_emptyGrid|]. split; [apply in_canvas_origin|].
  split; [lia|].
  apply (floodFill_only_replacement enoughFuel fill (block "water") 0 0
           emptyGrid).
  - apply wf_emptyGrid.
  - apply in_canvas_origin.
  - lia.
Defined.

Lemma emptyGrid_uniform x y : in_canvas x y → blockAt emptyGrid x y = Some "air"%string.
Proof.
  intros [Hx Hy]. unfold blockAt, cellAt, Js.get, emptyGrid.
  rewrite make_lookup. destruct (decide (0 ≤ y < CANVAS_HEIGHT)); [|lia].
  cbv [mbind option_bind]. rewrite make_lookup.
  destruct (decide (0 ≤ x < CANVAS_WIDTH)); [reflexivity | lia].
Qed.

Lemma floodFill_uniform_witness :
  wf_grid emptyGrid ∧ in_canvas 0 0 ∧
  (∀ x y, in_canvas x y → blockAt emptyGrid x y = Some "air"%string) ∧
  replacementOf fill (block "water") = "water"%string ∧
  (enoughFuel ≤ enoughFuel)%nat ∧
  ∃ g', floodFill enoughFuel fill (block "water") 0 0 emptyGrid = Done g' ∧
    (∀ x y, in_canvas x y → blockAt g' x y = Some "water"%string) ∧
    Z.of_nat (targetCount g' "water") = 3072.
Proof.
  split; [apply wf_emptyGrid|]. split; [apply in_canvas_origin|].
  split; [apply emptyGrid_uniform|]. split; [reflexivity|]. split; [lia|].
  apply (floodFill_uniform enoughFuel fill (block "water") 0 0 emptyGrid
           "air" "water").
  - apply wf_emptyGrid.
  - apply in_canvas_origin.
  - apply emptyGrid_uniform.
  - reflexivity.
  - lia.
Defined.

Lemma floodFill_idempotent_witness :
  wf_grid emptyGrid ∧ in_canvas 0 0 ∧ (enoughFuel ≤ enoughFuel)%nat ∧
  ∃ g1, floodFill enoughFuel fill (block "water") 0 0 emptyGrid = Done g1 ∧
        floodFill enoughFuel fill (block "water") 0 0 g1 = Done g1.
Proof.
  split; [apply wf_emptyGrid|]. split; [apply in_canvas_origin|].
  split; [lia|].
  apply (floodFill_idempotent enoughFuel fill (block "water") 0 0 emptyGrid).
  - apply wf_emptyGrid.
  - apply in_canvas_origin.
  - lia.
Defined.

Lemma paintCell_locality_witness :
  wf_grid emptyGrid ∧ in_canvas 5 5 ∧
  (∃ g', paintCell brush (block "stone") 5 5 emptyGrid = Done g' ∧
     blockAt g' 5 5 = Some (id (block "stone")) ∧
     ∀ x' y', (x', y') ≠ (5, 5) → cellAt g' x' y' = cellAt emptyGrid x' y') ∧
  (∃ g', paintCell eraser (block "stone") 5 5 emptyGrid = Done g' ∧
     blockAt g' 5 5 = Some "air"%string ∧
     ∀ x' y', (x', y') ≠ (5, 5) → cellAt g' x' y' = cellAt emptyGrid x' y').
Proof.
  assert (Hin : in_canvas 5 5).
  { unfold in_canvas, CANVAS_WIDTH, CANVAS_HEIGHT. lia. }
  split; [apply wf_emptyGrid|]. split; [exact Hin|].
  apply (paintCell_locality (block "stone") 5 5 emptyGrid).
  - apply wf_emptyGrid.
  - exact Hin.
Defined.

Lemma handleCanvasClick_out_of_range_witness :
  let ed := {| grid := emptyGrid; selectedBlock := block "stone";
               tool := brush; zoom := 1; panOffset := (0%Q, 0%Q);
               canvasRef := Some {| rect_left := 0; rect_top := 0 |} |} in
  wf_grid (grid ed) ∧
  clientPoint (MouseEvent (-5) 10) = Some ((-5)%Q, 10%Q) ∧
  getCanvasCoordinates ed (-5) 10 = Some (-1, 0) ∧
  ¬ in_canvas (-1) 0 ∧
  handleCanvasClick 0 ed (MouseEvent (-5) 10) = Done emptyGrid.
Proof.
  assert (Hout : ¬ in_canvas (-1) 0).
  { unfold in_canvas, CANVAS_WIDTH, CANVAS_HEIGHT. lia. }
  simpl. split; [apply wf_emptyGrid|]. split; [reflexivity|].
  split; [(vm_compute; done)|]. split; [exact Hout|].
  apply (handleCanvasClick_out_of_range 0
           {| grid := emptyGrid; selectedBlock := block "stone";
              tool := brush; zoom := 1; panOffset := (0%Q, 0%Q);
              canvasRef := Some {| rect_left := 0; rect_top := 0 |} |}
           (MouseEvent (-5) 10) (-5) 10 (-1) 0).
  - apply wf_emptyGrid.
  - reflexivity.
  - (vm_compute; done).
  - exact Hout.
Defined.

Lemma zoom_clamped_witness :
  (1 # 4 <= 1)%Q ∧ (1 <= 5)%Q ∧
  (1 # 4 <= fold_left applyZoom [Wheel 1; ZoomInButton; ZoomOutButton; ResetView] 1)%Q ∧
  (fold_left applyZoom [Wheel 1; ZoomInButton; ZoomOutButton; ResetView] 1 <= 5)%Q.
Proof.
  split; [(vm_compute; done)|]. split; [(vm_compute; done)|].
  apply (zoom_clamped 1 [Wheel 1; ZoomInButton; ZoomOutButton; ResetView]);
    (vm_compute; done).
Defined.

Lemma getCanvasCoordinates_centre_witness :
  let ed := {| grid := emptyGrid; selectedBlock := block "stone";
               tool := brush; zoom := 3 # 4; panOffset := (120%Q, (-40)%Q);
               canvasRef := Some {| rect_left := 0; rect_top := 0 |} |} in
  canvasRef ed = Some {| rect_left := 0; rect_top := 0 |} ∧
  (1 # 4 <= zoom ed)%Q ∧ (zoom ed <= 5)%Q ∧
  (Qabs (panOffset ed).1 <= 9007199254740992)%Q ∧
  (Qabs (panOffset ed).2 <= 9007199254740992)%Q ∧
  in_canvas 63 47 ∧
  (Number.sub (cellCentre 63 (zoom ed) (panOffset ed).1) 0
     == cellCentre 63 (zoom ed) (panOffset ed).1)%Q ∧
  (Number.sub (cellCentre 47 (zoom ed) (panOffset ed).2) 0
     == cellCentre 47 (zoom ed) (panOffset ed).2)%Q ∧
  getCanvasCoordinates ed (cellCentre 63 (zoom ed) (panOffset ed).1)
    (cellCentre 47 (zoom ed) (panOffset ed).2) = Some (63, 47).
Proof.
  assert (Hin : in_canvas 63 47).
  { unfold in_canvas, CANVAS_WIDTH, CANVAS_HEIGHT. lia. }
  simpl. split; [reflexivity|]. split; [(vm_compute; done)|].
  split; [(vm_compute; done)|]. split; [(vm_compute; done)|]. split; [(vm_compute; done)|].
  split; [exact Hin|]. split; [(vm_compute; done)|]. split; [(vm_compute; done)|].
  apply (getCanvasCoordinates_centre
           {| grid := emptyGrid; selectedBlock := block "stone";
              tool := brush; zoom := 3 # 4; panOffset := (120%Q, (-40)%Q);
              canvasRef := Some {| rect_left := 0; rect_top := 0 |} |}
           {| rect_left := 0; rect_top := 0 |}
           (cellCentre 63 (3 # 4) 120) (cellCentre 47 (3 # 4) (-40)) 47 63).
  - reflexivity.
  - (vm_compute; done).
  - (vm_compute; done).
  - (vm_compute; done).
  - (vm_compute; done).
  - exact Hin.
  - (vm_compute; done).
  - (vm_compute; done).
Defined.

(** * The range of the number model *)

Local Open Scope Q_scope.

Lemma within_mono (B B' x : Q) : B <= B' → within B x → within B' x.
Proof. unfold within. intros HB Hx. lra. Qed.

Lemma point_within_mono (B B' : Q) p :
  B <= B' → point_within B p → point_within B' p.
Proof. intros HB [H1 H2]. split; by apply (within_mono B). Qed.

Lemma canvas_within_mono (B B' : Q) c :
  B <= B' → canvas_within B c → canvas_within B' c.
Proof.
  intros HB. destruct c as [rect|]; [|done].
  intros [H1 H2]. split; by apply (within_mono B).
Qed.

Lemma session_within_mono (B B' : Q) s :
  B <= B' → session_within B s → session_within B' s.
Proof.
  intros HB (H1 & H2 & H3).
  split; [|split];
    [by apply (point_within_mono B) ..| by apply (canvas_within_mono B)].
Qed.

Lemma within_0 (B : Q) : 0 <= B → within B 0.
Proof. intros HB. unfold within. by change (Qabs 0) with 0. Qed.

(** A difference of two numbers within [M], rounded, is within [4 * M]:
    a subtraction at most doubles the magnitude and the rounding adds
    less than a [2^-52]th of it. *)
Lemma sub_within (M a b : Q) :
  1 <= M → within M a → within M b → within (4 * M) (Number.sub a b).
Proof.
  unfold within, Number.sub. intros HM Ha Hb.
  apply Qabs_Qle_condition in Ha as [Ha1 Ha2].
  apply Qabs_Qle_condition in Hb as [Hb1 Hb2].
  assert (Hd : Qabs (a - b) <= 2 * M).
  { apply Qabs_Qle_condition. split; lra. }
  destruct (rnd64_within _ _ Hd) as [H1 H2].
  apply Qabs_Qle_condition. split; lra.
Qed.

Lemma finiteRange_ge_1 : 1 <= finiteRange.
Proof. by vm_compute. Qed.

(** For a view and a pointer in range, no operation of the transform of
    [getCanvasCoordinates] leaves the finite binary64 numbers: the two
    differences and the quotient stay below [2^1024] in magnitude, and
    the divisor [CELL_SIZE * zoom] lies between 3 and 81, away from
    zero.  There the model's arithmetic is the code's. *)
Lemma transform_in_range (client corner pan z : Q) :
  within finiteRange client → within finiteRange corner →
  within finiteRange pan → 1 # 4 <= z → z <= 5 →
  Qabs (Number.sub client corner) < 2 ^ 1024 ∧
  Qabs (Number.sub (Number.sub client corner) pan) < 2 ^ 1024 ∧
  3 <= Number.mul (inject_Z CELL_SIZE) z ∧
  Number.mul (inject_Z CELL_SIZE) z <= 81 ∧
  Qabs (Number.div (Number.sub (Number.sub client corner) pan)
          (Number.mul (inject_Z CELL_SIZE) z)) < 2 ^ 1024.
Proof.
  intros Hc Hl Hp Hz1 Hz2.
  pose proof finiteRange_ge_1 as HR.
  assert (Htop : 2 ^ 1024 == 16777216 * finiteRange) by (by vm_compute).
  rewrite Htop. clear Htop.
  pose proof (sub_within _ _ _ HR Hc Hl) as Hd.
  assert (Hn : within (4 * (4 * finiteRange))
                 (Number.sub (Number.sub client corner) pan)).
  { apply sub_within; [lra | done |].
    apply (within_mono finiteRange); [lra | done]. }
  set (d := Number.sub client corner) in *.
  set (n := Number.sub d pan) in *.
  assert (Hw : Qabs (16 * z) <= 80).
  { apply (Qabs_le_bounds _ 4 80); lra. }
  destruct (rnd64_within _ _ Hw) as [Hw1 Hw2].
  unfold Number.mul, Number.div. change (inject_Z CELL_SIZE) with 16.
  set (w := rnd64 (16 * z)) in *.
  unfold within in *. set (R := finiteRange) in *. clearbody R.
  apply Qabs_Qle_condition in Hd as [Hd1 Hd2].
  pose proof Hn as Hn'. apply Qabs_Qle_condition in Hn' as [Hn1 Hn2].
  assert (Hq : Qabs (n / w) <= 6 * R).
  { apply Qabs_Qle_condition. split.
    - apply Qle_shift_div_l; [lra | nra].
    - apply Qle_shift_div_r; [lra | nra]. }
  destruct (rnd64_within _ _ Hq) as [Hq1 Hq2].
  apply Qabs_Qle_condition in Hq as [Hq3 Hq4].
  split.
  { apply Qle_lt_trans with (4 * R); [|lra].
    apply Qabs_Qle_condition. split; lra. }
  split.
  { apply Qle_lt_trans with (16 * R); [|lra].
    apply Qabs_Qle_condition. split; lra. }
  split; [lra|]. split; [lra|].
  apply Qle_lt_trans with (7 * R); [|lra].
  apply Qabs_Qle_condition. split; lra.
Qed.

Local Open Scope Z_scope.

(** * Further properties of the component *)

(** ** Grids as values *)

(** Two well-formed grids with the same cells are the same grid. *)
Lemma wf_grid_ext (g1 g2 : Grid) :
  wf_grid g1 → wf_grid g2 →
  (∀ x y, cellAt g1 x y = cellAt g2 x y) → g1 = g2.
Proof.
  intros (Hl1 & Hd1 & Hr1) (Hl2 & Hd2 & Hr2) Hcells.
  destruct g1 as [l1 p1], g2 as [l2 p2]; simpl in *.
  f_equal; [congruence|]. apply map_eq. intros y.
  destruct (p1 !! y) as [r1|] eqn:E1; destruct (p2 !! y) as [r2|] eqn:E2.
  - f_equal.
    destruct (Hr1 _ _ E1) as [Hrl1 Hrd1], (Hr2 _ _ E2) as [Hrl2 Hrd2].
    destruct r1 as [rl1 rp1], r2 as [rl2 rp2]; simpl in *.
    f_equal; [congruence|]. apply map_eq. intros x.
    specialize (Hcells x y). unfold cellAt, Js.get in Hcells. simpl in Hcells.
    by rewrite E1, E2 in Hcells.
  - exfalso. assert (is_Some (p2 !! y)) as [? ?]; [|congruence].
    apply Hd2, Hd1. eauto.
  - exfalso. assert (is_Some (p1 !! y)) as [? ?]; [|congruence].
    apply Hd1, Hd2. eauto.
  - done.
Qed.

Lemma cell_eta (c : Cell) : c = {| blockId := blockId c |}.
Proof. by destruct c. Qed.

(** What [paintCell] gives on a well-formed grid, for every tool. *)
Lemma paintCell_spec tl sel x y g :
  wf_grid g → in_canvas x y →
  ∃ g', paintCell tl sel x y g = Done g' ∧ wf_grid g' ∧
    (tl ≠ fill →
     cellAt g' x y = Some {| blockId := replacementOf tl sel |}) ∧
    (tl = fill → cellAt g' x y = cellAt g x y) ∧
    ∀ x' y', (x', y') ≠ (x, y) → cellAt g' x' y' = cellAt g x' y'.
Proof.
  intros Hwf Hin.
  assert (Hstore : tl ≠ fill →
            ∃ g', paintCell tl sel x y g = Done g' ∧ wf_grid g' ∧
              cellAt g' x y = Some {| blockId := replacementOf tl sel |} ∧
              ∀ x' y', (x', y') ≠ (x, y) → cellAt g' x' y' = cellAt g x' y').
  { intros Htl. rewrite paintCell_store by done.
    apply (storeCell_wf g x y _ Hwf Hin). }
  destruct tl.
  - destruct Hstore as (g' & ? & ? & ? & ?); [done|]. exists g'.
    split; [done|]. split; [done|]. split; [done|]. split; [done|done].
  - destruct Hstore as (g' & ? & ? & ? & ?); [done|]. exists g'.
    split; [done|]. split; [done|]. split; [done|]. split; [done|done].
  - exists g. unfold paintCell. rewrite (copyGrid_wf g Hwf).
    split; [done|]. split; [done|]. split; [done|]. split; [done|done].
Qed.

(** X1: on one cell the last stroke wins: painting a cell and painting
    it again (brush or eraser) gives the grid the second stroke alone
    gives. *)
Theorem paintCell_last_wins tl1 sel1 tl2 sel2 x y g :
  wf_grid g → in_canvas x y → tl2 ≠ fill →
  andThen (paintCell tl1 sel1 x y g) (paintCell tl2 sel2 x y)
  = paintCell tl2 sel2 x y g.
Proof.
  intros Hwf Hin Htl2.
  destruct (paintCell_spec tl1 sel1 x y g Hwf Hin)
    as (g1 & -> & Hwf1 & _ & _ & Ho1). simpl.
  destruct (paintCell_spec tl2 sel2 x y g1 Hwf1 Hin)
    as (g12 & -> & Hwf12 & Hc12 & _ & Ho12).
  destruct (paintCell_spec tl2 sel2 x y g Hwf Hin)
    as (g2 & -> & Hwf2 & Hc2 & _ & Ho2).
  f_equal. apply wf_grid_ext; try done. intros x' y'.
  destruct (decide ((x', y') = (x, y))) as [[= -> ->]|Hne].
  - by rewrite Hc12, Hc2.
  - by rewrite Ho12, Ho1, Ho2.
Qed.

(** X2: strokes on different cells commute. *)
Theorem paintCell_commute tl1 sel1 x1 y1 tl2 sel2 x2 y2 g :
  wf_grid g → in_canvas x1 y1 → in_canvas x2 y2 → (x1, y1) ≠ (x2, y2) →
  andThen (paintCell tl1 sel1 x1 y1 g) (paintCell tl2 sel2 x2 y2)
  = andThen (paintCell tl2 sel2 x2 y2 g) (paintCell tl1 sel1 x1 y1).
Proof.
  intros Hwf Hin1 Hin2 Hne.
  destruct (paintCell_spec tl1 sel1 x1 y1 g Hwf Hin1)
    as (g1 & -> & Hwf1 & Hc1 & Hf1 & Ho1).
  destruct (paintCell_spec tl2 sel2 x2 y2 g Hwf Hin2)
    as (g2 & -> & Hwf2 & Hc2 & Hf2 & Ho2). simpl.
  destruct (paintCell_spec tl2 sel2 x2 y2 g1 Hwf1 Hin2)
    as (g12 & -> & Hwf12 & Hc12 & Hf12 & Ho12).
  destruct (paintCell_spec tl1 sel1 x1 y1 g2 Hwf2 Hin1)
    as (g21 & -> & Hwf21 & Hc21 & Hf21 & Ho21).
  f_equal. apply wf_grid_ext; try done. intros x' y'.
  destruct (decide ((x', y') = (x1, y1))) as [[= -> ->]|Hne1].
  - rewrite Ho12 by done.
    destruct tl1.
    + by rewrite Hc1, Hc21.
    + by rewrite Hc1, Hc21.
    + rewrite Hf1, Hf21 by done. by rewrite Ho2.
  - rewrite Ho21 by done.
    destruct (decide ((x', y') = (x2, y2))) as [[= -> ->]|Hne2].
    + destruct tl2.
      * by rewrite Hc12, Hc2.
      * by rewrite Hc12, Hc2.
      * rewrite Hf12, Hf2 by done. by rewrite Ho1.
    + by rewrite Ho12, Ho1, Ho2.
Qed.

(** ** floodFill, in full *)

(** What a fill gives: the cells of the region of the start hold the
    replacement, every other cell is as it was, and the grid keeps its
    shape. *)
Lemma floodFill_spec fuel tl sel sx sy g target :
  wf_grid g → in_canvas sx sy → blockAt g sx sy = Some target →
  (enoughFuel ≤ fuel)%nat →
  ∃ g', floodFill fuel tl sel sx sy g = Done g' ∧ wf_grid g' ∧
    (∀ x y, connected g target (sx, sy) (x, y) →
       cellAt g' x y = Some {| blockId := replacementOf tl sel |}) ∧
    (∀ x y, cellAt g' x y = cellAt g x y ∨
            connected g target (sx, sy) (x, y)).
Proof.
  intros Hwf Hin Ht Hfuel.
  destruct (decide (target = replacementOf tl sel)) as [->|Hne].
  - exists g. split; [by apply floodFill_same|]. split; [done|].
    split; [|by left].
    intros x y Hc. apply connected_holds in Hc as [_ Hc]. simpl in Hc.
    apply blockAt_Some in Hc as (c & -> & <-). f_equal. apply cell_eta.
  - pose proof (enoughFuel_bound g target).
    destruct (floodFill_loop fuel tl sel sx sy g target)
      as (g' & Hrun & Hwf' & Hinv); try done; [lia|].
    exists g'. split; [done|]. split; [done|]. split.
    + intros x y Hc.
      assert (filled g g' target (replacementOf tl sel) (x, y)) as [_ Hf]
        by (eapply flood_inv_region; eauto).
      done.
    + intros x y.
      destruct (inv_cells _ _ _ _ _ _ Hinv (x, y)) as [Heq|[_ Hc]];
        [by left | by right].
Qed.

(** X3: floodFill replaces exactly the region of the start cell: a cell
    linked to the start through cells holding the start's identifier
    holds the replacement afterwards, every other cell is as before, and
    the grid keeps its 48 rows of 64 cells. *)
Theorem floodFill_exact fuel tl sel sx sy g target :
  wf_grid g → in_canvas sx sy → blockAt g sx sy = Some target →
  (enoughFuel ≤ fuel)%nat →
  ∃ g', floodFill fuel tl sel sx sy g = Done g' ∧ wf_grid g' ∧
    (∀ x y, connected g target (sx, sy) (x, y) →
       blockAt g' x y = Some (replacementOf tl sel)) ∧
    (∀ x y, ¬ connected g target (sx, sy) (x, y) →
       cellAt g' x y = cellAt g x y).
Proof.
  intros Hwf Hin Ht Hfuel.
  destruct (floodFill_spec fuel tl sel sx sy g target)
    as (g' & Hrun & Hwf' & Hreg & Hrest); try done.
  exists g'. split; [done|]. split; [done|]. split.
  - intros x y Hc. unfold blockAt. by rewrite (Hreg x y Hc).
  - intros x y Hnc. by destruct (Hrest x y).
Qed.

Lemma isolated_connected g target s p :
  (∀ q, adjacent s q → in_canvas q.1 q.2 →
        blockAt g q.1 q.2 ≠ Some target) →
  connected g target s p → p = s.
Proof.
  intros Hiso Hc. induction Hc as [|p q Hc IH Hadj Hq Hqt]; [done|].
  subst p. by destruct (Hiso q Hadj Hq).
Qed.

(** X4: a start cell none of whose four neighbours holds its identifier
    is the only cell a fill changes. *)
Theorem floodFill_isolated fuel tl sel sx sy g target :
  wf_grid g → in_canvas sx sy → blockAt g sx sy = Some target →
  (∀ q, adjacent (sx, sy) q → in_canvas q.1 q.2 →
        blockAt g q.1 q.2 ≠ Some target) →
  (enoughFuel ≤ fuel)%nat →
  ∃ g', floodFill fuel tl sel sx sy g = Done g' ∧
    blockAt g' sx sy = Some (replacementOf tl sel) ∧
    ∀ x y, (x, y) ≠ (sx, sy) → cellAt g' x y = cellAt g x y.
Proof.
  intros Hwf Hin Ht Hiso Hfuel.
  destruct (floodFill_spec fuel tl sel sx sy g target)
    as (g' & Hrun & Hwf' & Hreg & Hrest); try done.
  exists g'. split; [done|]. split.
  - unfold blockAt. rewrite (Hreg sx sy); [done|]. by constructor.
  - intros x y Hne. destruct (Hrest x y) as [Heq|Hc]; [done|].
    by apply (isolated_connected _ _ _ _ Hiso) in Hc.
Qed.

(** X5: a fill is undone by filling back: when the replacement occurs
    nowhere on the canvas, filling from a cell and then filling from the
    same cell with the identifier it held gives back the grid. *)
Theorem floodFill_undo fuel tl sel tl' sel' sx sy g target :
  wf_grid g → in_canvas sx sy → blockAt g sx sy = Some target →
  (∀ x y, in_canvas x y → blockAt g x y ≠ Some (replacementOf tl sel)) →
  replacementOf tl' sel' = target →
  (enoughFuel ≤ fuel)%nat →
  andThen (floodFill fuel tl sel sx sy g) (floodFill fuel tl' sel' sx sy)
  = Done g.
Proof.
  intros Hwf Hin Ht Hfresh Hback Hfuel.
  set (repl := replacementOf tl sel) in *.
  destruct (floodFill_spec fuel tl sel sx sy g target)
    as (g1 & -> & Hwf1 & Hreg1 & Hrest1); try done. simpl.
  assert (Hs1 : blockAt g1 sx sy = Some repl).
  { unfold blockAt. rewrite (Hreg1 sx sy); [done|]. by constructor. }
  destruct (floodFill_spec fuel tl' sel' sx sy g1 repl)
    as (g2 & -> & Hwf2 & Hreg2 & Hrest2); try done.
  f_equal. apply wf_grid_ext; try done. intros x y.
  assert (Hfwd : ∀ p, connected g target (sx, sy) p →
                      connected g1 repl (sx, sy) p).
  { intros p Hc. induction Hc as [|p q Hc IH Hadj Hq Hqt].
    - by constructor.
    - apply (connected_step _ _ _ p); try done.
      unfold blockAt. rewrite (Hreg1 q.1 q.2); [done|].
      destruct q. by apply (connected_step _ _ _ p). }
  destruct (Hrest1 x y) as [Heq1|Hc1].
  - destruct (Hrest2 x y) as [Heq2|Hc2]; [congruence|].
    exfalso. apply connected_holds in Hc2 as [Hin2 Hb2]. simpl in *.
    apply (Hfresh x y Hin2). unfold blockAt in *. by rewrite <- Heq1.
  - rewrite (Hreg2 x y (Hfwd _ Hc1)), Hback.
    apply connected_holds in Hc1 as [_ Hb]. simpl in Hb.
    apply blockAt_Some in Hb as (c & -> & <-). f_equal. symmetry.
    apply cell_eta.
Qed.

(** ** handleCanvasClick *)

(** What a click gives in the model on a well-formed grid: the grid
    keeps its shape, and either nothing changed, or the pointer was over
    a cell of the canvas and the tool was applied there. *)
Lemma handleCanvasClick_spec fuel ed e :
  wf_grid (grid ed) → (enoughFuel ≤ fuel)%nat →
  ∃ g', handleCanvasClick fuel ed e = Done g' ∧ wf_grid g' ∧
    (g' = grid ed ∨
     ∃ cx cy x y,
       clientPoint e = Some (cx, cy) ∧
       getCanvasCoordinates ed cx cy = Some (x, y) ∧ in_canvas x y ∧
       match tool ed with
       | fill => floodFill fuel fill (selectedBlock ed) x y (grid ed) = Done g'
       | _ => paintCell (tool ed) (selectedBlock ed) x y (grid ed) = Done g'
       end).
Proof.
  intros Hwf Hfuel. unfold handleCanvasClick.
  destruct (clientPoint e) as [[cx cy]|] eqn:He; [|by exists (grid ed); auto].
  destruct (getCanvasCoordinates ed cx cy) as [[x y]|] eqn:Hxy;
    [|by exists (grid ed); auto].
  destruct (out_of_canvas x y) eqn:Hout; [by exists (grid ed); auto|].
  apply out_of_canvas_false in Hout.
  destruct (tool ed) eqn:Htl.
  - destruct (paintCell_spec brush (selectedBlock ed) x y (grid ed) Hwf Hout)
      as (g' & Hrun & Hwf' & _).
    exists g'. split; [done|]. split; [done|]. right.
    exists cx, cy, x, y. done.
  - destruct (paintCell_spec eraser (selectedBlock ed) x y (grid ed) Hwf Hout)
      as (g' & Hrun & Hwf' & _).
    exists g'. split; [done|]. split; [done|]. right.
    exists cx, cy, x, y. done.
  - destruct (wf_cellAt (grid ed) x y Hwf Hout) as [c Hc].
    destruct (floodFill_spec fuel fill (selectedBlock ed) x y (grid ed)
                (blockId c)) as (g' & Hrun & Hwf' & _); try done.
    { apply blockAt_Some. eauto. }
    exists g'. split; [done|]. split; [done|]. right.
    exists cx, cy, x, y. done.
Qed.

(** X6: for a view and a pointer in range (the zoom in [0.25, 5]; the
    pan offset, the corner of the canvas and the pointer of magnitude at
    most [2^1000], where [transform_in_range] applies), on a well-formed
    grid, handleCanvasClick throws for no event, whatever the tool and
    wherever the pointer is, and the grid it stores is well-formed
    again. *)
Theorem handleCanvasClick_safe fuel ed e :
  wf_grid (grid ed) → (enoughFuel ≤ fuel)%nat →
  view_within finiteRange ed → event_within finiteRange e →
  ∃ g', handleCanvasClick fuel ed e = Done g' ∧ wf_grid g'.
Proof.
  intros Hwf Hfuel _ _.
  destruct (handleCanvasClick_spec fuel ed e Hwf Hfuel) as (g' & ? & ? & _).
  eauto.
Qed.

(** X7: for a view and a pointer in range, with the brush or the eraser,
    a click changes no cell but the one under the pointer, and that one
    only to the identifier of the tool (the selected block's, or
    "air"). *)
Theorem handleCanvasClick_paints_under_pointer fuel ed e :
  wf_grid (grid ed) → tool ed ≠ fill →
  view_within finiteRange ed → event_within finiteRange e →
  ∃ g', handleCanvasClick fuel ed e = Done g' ∧
    ∀ x y, cellAt g' x y ≠ cellAt (grid ed) x y →
      (∃ cx cy, clientPoint e = Some (cx, cy) ∧
                getCanvasCoordinates ed cx cy = Some (x, y)) ∧
      in_canvas x y ∧
      blockAt g' x y = Some (replacementOf (tool ed) (selectedBlock ed)).
Proof.
  intros Hwf Htl _ _. unfold handleCanvasClick.
  destruct (clientPoint e) as [[cx cy]|] eqn:He; [|by exists (grid ed)].
  destruct (getCanvasCoordinates ed cx cy) as [[x y]|] eqn:Hxy;
    [|by exists (grid ed)].
  destruct (out_of_canvas x y) eqn:Hout; [by exists (grid ed)|].
  apply out_of_canvas_false in Hout.
  destruct (paintCell_spec (tool ed) (selectedBlock ed) x y (grid ed) Hwf Hout)
    as (g' & Hrun & _ & Hc & _ & Ho).
  exists g'. split; [by destruct (tool ed)|].
  intros x' y' Hch.
  destruct (decide ((x', y') = (x, y))) as [[= -> ->]|Hne].
  - split; [eauto|]. split; [done|]. unfold blockAt. by rewrite Hc.
  - by destruct Hch; apply Ho.
Qed.

(** X8: a touch event that carries no touch, and any event while the
    canvas is not mounted, leave the grid as it is. *)
Theorem handleCanvasClick_nothing_to_hit fuel ed e :
  clientPoint e = None ∨ canvasRef ed = None →
  handleCanvasClick fuel ed e = Done (grid ed).
Proof.
  intros [He|Hc]; unfold handleCanvasClick.
  - by rewrite He.
  - destruct (clientPoint e) as [[cx cy]|]; [|done].
    unfold getCanvasCoordinates. by rewrite Hc.
Qed.

(** ** Numbers that rounding leaves alone *)

Local Open Scope Q_scope.

Lemma round_half_even_wd (x y : Q) :
  x == y → round_half_even x = round_half_even y.
Proof.
  intros Hxy. unfold round_half_even.
  rewrite (Qfloor_comp x y Hxy).
  assert (Hc : (x - inject_Z (Qfloor y) ?= 1 # 2)
               = (y - inject_Z (Qfloor y) ?= 1 # 2)).
  { apply Qcompare_comp; [by rewrite Hxy | reflexivity]. }
  by rewrite Hc.
Qed.

Lemma round_half_even_Z (z : Z) : round_half_even (inject_Z z) = z.
Proof.
  unfold round_half_even. rewrite Qfloor_Z.
  destruct (inject_Z z - inject_Z z ?= 1 # 2) eqn:Hc.
  - apply Qeq_alt in Hc. lra.
  - done.
  - apply Qgt_alt in Hc. lra.
Qed.

Lemma Qlog2_unique (x : Q) (l : Z) :
  2 ^ l <= x → x < 2 ^ (l + 1) → Qlog2 x = l.
Proof.
  intros Hlo Hhi.
  assert (Hx : 0 < x).
  { eapply Qlt_le_trans; [|exact Hlo]. by apply Qpower_0_lt. }
  pose proof (Qlog2_le x Hx) as Hlo'. pose proof (Qlog2_lt x Hx) as Hhi'.
  assert (H1 : 2 ^ l < 2 ^ (Qlog2 x + 1)) by (eapply Qle_lt_trans; eauto).
  assert (H2 : 2 ^ Qlog2 x < 2 ^ (l + 1)) by (eapply Qle_lt_trans; eauto).
  apply Qpower_lt_compat_l_inv in H1; [|reflexivity].
  apply Qpower_lt_compat_l_inv in H2; [|reflexivity]. lia.
Qed.

(** Rounding does not depend on how the rational is written. *)
#[global] Instance rnd64_wd : Proper (Qeq ==> Qeq) rnd64.
Proof.
  intros x y Hxy. unfold rnd64.
  assert (H0 : Qeq_bool x 0 = Qeq_bool y 0).
  { destruct (Qeq_bool y 0) eqn:Hy.
    - apply Qeq_bool_iff. apply Qeq_bool_iff in Hy. by rewrite Hxy.
    - destruct (Qeq_bool x 0) eqn:Hx; [|done].
      apply Qeq_bool_iff in Hx. rewrite Hxy in Hx.
      apply Qeq_bool_iff in Hx. congruence. }
  rewrite H0. destruct (Qeq_bool y 0) eqn:Hy; [reflexivity|].
  assert (Hy0 : ¬ y == 0).
  { intros Hz. apply Qeq_bool_iff in Hz. congruence. }
  assert (He : ulp_exp x = ulp_exp y).
  { unfold ulp_exp. f_equal. f_equal.
    pose proof (Qabs_pos_lt y Hy0) as Hpos.
    apply Qlog2_unique.
    - rewrite Hxy. by apply Qlog2_le.
    - rewrite Hxy. by apply Qlog2_lt. }
  rewrite !Qred_correct, He.
  rewrite (round_half_even_wd (x / 2 ^ ulp_exp y) (y / 2 ^ ulp_exp y))
    by (by rewrite Hxy).
  reflexivity.
Qed.

#[global] Instance floor_wd : Proper (Qeq ==> eq) Math.floor.
Proof. intros x y Hxy. by apply Qfloor_comp. Qed.

(** A binary64 value, [n * 2^j] with [|n| < 2^53] and [j >= -1074], is
    its own rounding. *)
Lemma rnd64_exact (n j : Z) :
  (Z.abs n < 2 ^ 53)%Z → (-1074 ≤ j)%Z →
  rnd64 (inject_Z n * 2 ^ j) == inject_Z n * 2 ^ j.
Proof.
  intros Hn Hj. set (x := inject_Z n * 2 ^ j).
  unfold rnd64. destruct (Qeq_bool x 0) eqn:H0.
  { apply Qeq_bool_iff in H0. by rewrite H0. }
  assert (Hx : ¬ x == 0).
  { intros Hx. apply Qeq_bool_iff in Hx. congruence. }
  clear H0. rewrite Qred_correct.
  assert (Hpj : 0 < 2 ^ j) by (by apply Qpower_0_lt).
  assert (Habs : Qabs x == inject_Z (Z.abs n) * 2 ^ j).
  { unfold x. rewrite Qabs_Qmult, (Qabs_pos (2 ^ j)) by (by apply Qlt_le_weak).
    reflexivity. }
  assert (He : (ulp_exp x ≤ j)%Z).
  { unfold ulp_exp. apply Z.max_lub; [|done].
    pose proof (Qlog2_le (Qabs x) (Qabs_pos_lt x Hx)) as Hlog.
    assert (Hlt : 2 ^ Qlog2 (Qabs x) < 2 ^ (53 + j)).
    { eapply Qle_lt_trans; [exact Hlog|]. rewrite Habs.
      rewrite Qpower_plus by discriminate.
      apply Qmult_lt_compat_r; [done|].
      change (2 ^ 53) with (inject_Z (2 ^ 53)). by rewrite <- Zlt_Qlt. }
    apply Qpower_lt_compat_l_inv in Hlt; [lia | reflexivity]. }
  set (e := ulp_exp x) in *.
  assert (Hpe : 0 < 2 ^ e) by (by apply Qpower_0_lt).
  assert (Hm : x / 2 ^ e == inject_Z (n * 2 ^ (j - e))).
  { unfold x. rewrite inject_Z_mult, (Zpower_Qpower 2) by lia.
    rewrite Qpower_minus by discriminate.
    change (inject_Z 2) with 2. field.
    intros Hz. rewrite Hz in Hpe. by apply Qlt_irrefl in Hpe. }
  rewrite (round_half_even_wd _ _ Hm), round_half_even_Z, <- Hm.
  field. intros Hz. rewrite Hz in Hpe. by apply Qlt_irrefl in Hpe.
Qed.

(** Integers of magnitude below [2^53] and their halves, quarters and
    sixteenths are binary64 values. *)
Lemma rnd64_Z (n : Z) :
  (Z.abs n < 2 ^ 53)%Z → rnd64 (inject_Z n) == inject_Z n.
Proof.
  intros Hn. pose proof (rnd64_exact n 0 Hn ltac:(lia)) as H.
  change (2 ^ 0) with 1 in H. by rewrite Qmult_1_r in H.
Qed.

Lemma Qle_bool_wd (a b a' b' : Q) :
  a == a' → b == b' → Qle_bool a b = Qle_bool a' b'.
Proof.
  intros Ha Hb. destruct (Qle_bool a' b') eqn:H'.
  - apply Qle_bool_iff. apply Qle_bool_iff in H'. by rewrite Ha, Hb.
  - destruct (Qle_bool a b) eqn:H; [|done].
    apply Qle_bool_iff in H. rewrite Ha, Hb in H.
    apply Qle_bool_iff in H. congruence.
Qed.

#[global] Instance max_wd : Proper (Qeq ==> Qeq ==> Qeq) Math.max.
Proof.
  intros a a' Ha b b' Hb. unfold Math.max.
  rewrite (Qle_bool_wd a b a' b' Ha Hb). by destruct (Qle_bool a' b').
Qed.

#[global] Instance min_wd : Proper (Qeq ==> Qeq ==> Qeq) Math.min.
Proof.
  intros a a' Ha b b' Hb. unfold Math.min.
  rewrite (Qle_bool_wd a b a' b' Ha Hb). by destruct (Qle_bool a' b').
Qed.

Lemma max_r (a b : Q) : a <= b → Math.max a b == b.
Proof.
  intros Hab. unfold Math.max.
  destruct (Qle_bool a b) eqn:H; [reflexivity|].
  apply Qle_bool_iff in Hab. congruence.
Qed.

Lemma max_l (a b : Q) : b <= a → Math.max a b == a.
Proof.
  intros Hab. unfold Math.max.
  destruct (Qle_bool a b) eqn:H; [|reflexivity].
  apply Qle_bool_iff in H. lra.
Qed.

Lemma min_r (a b : Q) : b <= a → Math.min a b == b.
Proof.
  intros Hab. unfold Math.min.
  destruct (Qle_bool a b) eqn:H; [|reflexivity].
  apply Qle_bool_iff in H. lra.
Qed.

Lemma min_l (a b : Q) : a <= b → Math.min a b == a.
Proof.
  intros Hab. unfold Math.min.
  destruct (Qle_bool a b) eqn:H; [reflexivity|].
  apply Qle_bool_iff in Hab. congruence.
Qed.

Lemma sub_Z (a b : Q) (m n : Z) :
  a == inject_Z m → b == inject_Z n → (Z.abs (m - n) < 2 ^ 53)%Z →
  Number.sub a b == inject_Z (m - n).
Proof.
  intros Ha Hb Hmn. unfold Number.sub. rewrite Ha, Hb.
  assert (He : inject_Z m - inject_Z n == inject_Z (m - n)).
  { unfold Z.sub. rewrite inject_Z_plus, inject_Z_opp. reflexivity. }
  rewrite He. by apply rnd64_Z.
Qed.

(** ** Whole pixels at a power-of-two zoom *)

Lemma axis_pixels (C L P Zm : Q) (c l p k : Z) :
  C == inject_Z c → L == inject_Z l → P == inject_Z p → Zm == 2 ^ k →
  (-2 ≤ k ≤ 2)%Z →
  (Z.abs c ≤ 2 ^ 50)%Z → (Z.abs l ≤ 2 ^ 50)%Z → (Z.abs p ≤ 2 ^ 50)%Z →
  Math.floor
    (Number.div (Number.sub (Number.sub C L) P)
       (Number.mul (inject_Z CELL_SIZE) Zm))
  = ((c - l - p) / 2 ^ (4 + k))%Z.
Proof.
  intros HC HL HP HZ Hk Hc Hl Hp.
  assert (H1 : Number.sub C L == inject_Z (c - l)).
  { apply sub_Z; [done..|]. lia. }
  assert (H2 : Number.sub (Number.sub C L) P == inject_Z (c - l - p)).
  { apply sub_Z; [done..|]. lia. }
  set (n := (c - l - p)%Z) in *.
  assert (Hn : (Z.abs n < 2 ^ 53)%Z) by lia.
  assert (HW : Number.mul (inject_Z CELL_SIZE) Zm == 2 ^ (4 + k)).
  { unfold Number.mul. change (inject_Z CELL_SIZE) with (2 ^ 4). rewrite HZ.
    rewrite <- Qpower_plus by discriminate.
    pose proof (rnd64_exact 1 (4 + k) ltac:(lia) ltac:(lia)) as He.
    change (inject_Z 1) with 1 in He. by rewrite !Qmult_1_l in He. }
  assert (Hpos : 0 < 2 ^ (4 + k)) by (by apply Qpower_0_lt).
  unfold Number.div. rewrite H2, HW.
  assert (Hq : inject_Z n / 2 ^ (4 + k) == inject_Z n * 2 ^ (- (4 + k))).
  { rewrite Qpower_opp. reflexivity. }
  rewrite Hq, (rnd64_exact n (- (4 + k)) Hn) by lia. rewrite <- Hq.
  rewrite <- (Zpower_Qpower 2) by lia.
  unfold Math.floor. symmetry. apply Zdiv_Qdiv.
Qed.

(** X9: at zoom 0.25, 0.5, 1, 2 or 4, with the pointer, the canvas
    corner and the pan offset on whole pixels, getCanvasCoordinates is
    exact: the cell is the floor of the pointer's offset into the grid
    divided by the size of a cell on screen, [16 * zoom]. *)
Theorem getCanvasCoordinates_pixels ed rect (clientX clientY : Q)
    (cx cy l t px py k : Z) :
  canvasRef ed = Some rect →
  zoom ed == 2 ^ k → (-2 ≤ k ≤ 2)%Z →
  clientX == inject_Z cx → clientY == inject_Z cy →
  rect_left rect == inject_Z l → rect_top rect == inject_Z t →
  (panOffset ed).1 == inject_Z px → (panOffset ed).2 == inject_Z py →
  (Z.abs cx ≤ 2 ^ 50 ∧ Z.abs cy ≤ 2 ^ 50 ∧ Z.abs l ≤ 2 ^ 50 ∧
   Z.abs t ≤ 2 ^ 50 ∧ Z.abs px ≤ 2 ^ 50 ∧ Z.abs py ≤ 2 ^ 50)%Z →
  getCanvasCoordinates ed clientX clientY
  = Some (((cx - l - px) / 2 ^ (4 + k))%Z, ((cy - t - py) / 2 ^ (4 + k))%Z).
Proof.
  intros Hc Hz Hk Hcx Hcy Hl Ht Hpx Hpy (B1 & B2 & B3 & B4 & B5 & B6).
  unfold getCanvasCoordinates. rewrite Hc. f_equal. f_equal.
  - by apply axis_pixels.
  - by apply axis_pixels.
Qed.

(** ** More on zoom *)

#[global] Instance zoomOutClick_wd : Proper (Qeq ==> Qeq) zoomOutClick.
Proof. intros z z' Hz. unfold zoomOutClick, Number.sub. by rewrite Hz. Qed.

#[global] Instance zoomInClick_wd : Proper (Qeq ==> Qeq) zoomInClick.
Proof. intros z z' Hz. unfold zoomInClick, Number.add. by rewrite Hz. Qed.

Lemma quarter (m : Z) : inject_Z m * 2 ^ (-2) == inject_Z m / 4.
Proof. reflexivity. Qed.

Lemma zoomOutClick_quarter (m : Z) :
  (2 ≤ m ≤ 20)%Z →
  zoomOutClick (inject_Z m / 4) == inject_Z (m - 1) / 4.
Proof.
  intros Hm. unfold zoomOutClick, Number.sub.
  assert (He : inject_Z m / 4 - (1 # 4) == inject_Z (m - 1) * 2 ^ (-2)).
  { rewrite (quarter (m - 1)). unfold Z.sub.
    rewrite inject_Z_plus, inject_Z_opp. change (inject_Z 1) with 1.
    field. }
  rewrite He, (rnd64_exact (m - 1) (-2)), (quarter (m - 1)) by lia.
  apply max_r. apply Qle_shift_div_l; [reflexivity|].
  assert (H1 : (1 # 4) * 4 == inject_Z 1) by reflexivity.
  rewrite H1, <- Zle_Qle. lia.
Qed.

Lemma zoomInClick_quarter (m : Z) :
  (1 ≤ m ≤ 19)%Z →
  zoomInClick (inject_Z m / 4) == inject_Z (m + 1) / 4.
Proof.
  intros Hm. unfold zoomInClick, Number.add.
  assert (He : inject_Z m / 4 + (1 # 4) == inject_Z (m + 1) * 2 ^ (-2)).
  { rewrite (quarter (m + 1)), inject_Z_plus.
    change (inject_Z 1) with 1. field. }
  rewrite He, (rnd64_exact (m + 1) (-2)), (quarter (m + 1)) by lia.
  apply min_r. apply Qle_shift_div_r; [reflexivity|].
  change (5 * 4) with (inject_Z 20). rewrite <- Zle_Qle. lia.
Qed.

(** X10: on the quarter steps the two zoom buttons undo each other:
    from 0.5, 0.75, ..., 5 zoom-out then zoom-in gives back the zoom, and
    from 0.25, 0.5, ..., 4.75 zoom-in then zoom-out does. *)
Theorem zoom_buttons_inverse (z : Q) (m : Z) :
  z == inject_Z m / 4 → (1 ≤ m ≤ 20)%Z →
  ((2 ≤ m)%Z → zoomInClick (zoomOutClick z) == z) ∧
  ((m ≤ 19)%Z → zoomOutClick (zoomInClick z) == z).
Proof.
  intros Hz Hm. split; intros Hm'; rewrite Hz.
  - rewrite (zoomOutClick_quarter m), (zoomInClick_quarter (m - 1)) by lia.
    by replace (m - 1 + 1)%Z with m by lia.
  - rewrite (zoomInClick_quarter m), (zoomOutClick_quarter (m + 1)) by lia.
    by replace (m + 1 - 1)%Z with m by lia.
Qed.

(** X11: the wheel moves the zoom the way it turns and by no more than
    a step: a positive [deltaY] (scrolling down) lowers the zoom by at
    most 0.1 (and a rounding's worth), any other raises it by at most
    that, within [0.25, 5]. *)
Theorem handleWheel_step (deltaY z : Q) :
  1 # 4 <= z → z <= 5 →
  if Qle_bool deltaY 0
  then z <= handleWheel deltaY z ∧
       handleWheel deltaY z - z <= (1 # 10) + (1 # 1000000000000000)
  else handleWheel deltaY z <= z ∧
       z - handleWheel deltaY z <= (1 # 10) + (1 # 1000000000000000).
Proof.
  intros Hlo Hhi. unfold handleWheel, Number.add. rewrite rnd64_tenth.
  set (d := 3602879701896397 # 36028797018963968).
  assert (Hd1 : 1 # 10 <= d) by (vm_compute; discriminate).
  assert (Hd2 : d <= (1 # 10) + (1 # 10000000000000000))
    by (vm_compute; discriminate).
  destruct (Qle_bool deltaY 0); simpl.
  - assert (Hb : Qabs (z + d) <= 6).
    { apply (Qabs_le_bounds _ 0 6); lra. }
    destruct (rnd64_within _ _ Hb) as [Hr1 Hr2].
    set (s := rnd64 (z + d)) in *.
    destruct (min_spec 5 s) as (Hm1 & Hm2 & _).
    set (u := Math.min 5 s) in *.
    destruct (max_spec (1 # 4) u) as (Hx1 & Hx2 & Hx).
    set (h := Math.max (1 # 4) u) in *.
    assert (Hcase : h == 1 # 4 ∨ h == u).
    { destruct Hx as [Hx|Hx]; [left|right]; by rewrite Hx. }
    assert (Hu : u == 5 ∨ u == s).
    { subst u. unfold Math.min. destruct (Qle_bool 5 s); [left|right];
        reflexivity. }
    clearbody h u. destruct Hcase, Hu; split; lra.
  - assert (Hb : Qabs (z + - d) <= 6).
    { apply (Qabs_le_bounds _ 0 6); lra. }
    destruct (rnd64_within _ _ Hb) as [Hr1 Hr2].
    set (s := rnd64 (z + - d)) in *.
    destruct (min_spec 5 s) as (Hm1 & Hm2 & _).
    set (u := Math.min 5 s) in *.
    destruct (max_spec (1 # 4) u) as (Hx1 & Hx2 & Hx).
    set (h := Math.max (1 # 4) u) in *.
    assert (Hcase : h == 1 # 4 ∨ h == u).
    { destruct Hx as [Hx|Hx]; [left|right]; by rewrite Hx. }
    assert (Hu : u == 5 ∨ u == s).
    { subst u. unfold Math.min. destruct (Qle_bool 5 s); [left|right];
        reflexivity. }
    clearbody h u. destruct Hcase, Hu; split; lra.
Qed.

(** ** Sequences of inputs *)

Local Open Scope Z_scope.

Lemma andThen_abort {A B} (f : outcome B → A → outcome B) (l : list A)
    (o : outcome B) :
  (∀ a, f TypeError a = TypeError) → (∀ a, f OutOfFuel a = OutOfFuel) →
  (o = TypeError ∨ o = OutOfFuel) → fold_left f l o = o.
Proof.
  intros HT HF. induction l as [|a l IH]; intros Ho; [done|]. simpl.
  destruct Ho as [-> | ->]; [rewrite HT | rewrite HF]; apply IH; auto.
Qed.

Lemma handleInputs_cons fuel i l s :
  handleInputs fuel (i :: l) s
  = andThen (handleInput fuel i s) (handleInputs fuel l).
Proof.
  unfold handleInputs. simpl.
  destruct (handleInput fuel i s); simpl; [done|..];
    by apply andThen_abort; auto.
Qed.

Lemma handleInputs_nil fuel s : handleInputs fuel [] s = Done s.
Proof. done. Qed.

Lemma handleInputs_app fuel l1 l2 s :
  handleInputs fuel (l1 ++ l2) s
  = andThen (handleInputs fuel l1 s) (handleInputs fuel l2).
Proof.
  revert s. induction l1 as [|i l1 IH]; intros s; [done|].
  rewrite <- app_comm_cons, !handleInputs_cons.
  destruct (handleInput fuel i s); simpl; [apply IH | done..].
Qed.

(** While a pan is on, moves leave everything but the pan offset. *)
Lemma panning_moves fuel pts s :
  isPanning s = true →
  ∃ p, handleInputs fuel (mouseMoves pts) s = Done (setPanOffset p s).
Proof.
  revert s. induction pts as [|[x y] pts IH]; intros s Hp.
  - exists (panOffset (editor s)). rewrite handleInputs_nil.
    by destruct s as [[]].
  - unfold mouseMoves. rewrite fmap_cons. fold (mouseMoves pts).
    rewrite handleInputs_cons. simpl.
    unfold handleMouseMove. rewrite Hp. simpl.
    destruct (IH (setPanOffset (Number.sub x (panStart s).1,
                                Number.sub y (panStart s).2) s) Hp)
      as [p ->].
    by exists p.
Qed.

Lemma pan_drag_run fuel s button shiftKey (x0 y0 : Q) pts (x1 y1 : Q) :
  button = 1 ∨ shiftKey = true →
  handleInputs fuel
    (MouseDown button shiftKey x0 y0 :: mouseMoves pts ++ [MouseMove x1 y1]) s
  = Done (setPanOffset
            (Number.sub x1 (Number.sub x0 (panOffset (editor s)).1),
             Number.sub y1 (Number.sub y0 (panOffset (editor s)).2))
            (setPanStart
               (Number.sub x0 (panOffset (editor s)).1,
                Number.sub y0 (panOffset (editor s)).2)
               (setIsPanning true s))).
Proof.
  intros Hb. rewrite handleInputs_cons. simpl. unfold handleMouseDown.
  assert (Hcond : (button =? 1) || shiftKey = true).
  { destruct Hb as [-> | ->]; [done | by rewrite orb_true_r]. }
  rewrite Hcond. simpl. rewrite handleInputs_app.
  set (s1 := setPanStart _ (setIsPanning true s)).
  destruct (panning_moves fuel pts s1 eq_refl) as [p ->]. simpl.
  rewrite handleInputs_cons. simpl. unfold handleMouseMove. simpl.
  by rewrite handleInputs_nil.
Qed.

(** X12: a pan drag (a press with the middle button or with shift held,
    then moves) never touches the grid, the tool or the zoom, and where
    it ends depends on the press and on the last move alone: the pan
    offset is the last position less the anchor taken at the press. *)
Theorem pan_drag fuel s button shiftKey (x0 y0 : Q) pts (x1 y1 : Q) :
  button = 1 ∨ shiftKey = true →
  handleInputs fuel
    (MouseDown button shiftKey x0 y0 :: mouseMoves pts ++ [MouseMove x1 y1]) s
  = Done (setPanOffset
            (Number.sub x1 (Number.sub x0 (panOffset (editor s)).1),
             Number.sub y1 (Number.sub y0 (panOffset (editor s)).2))
            (setPanStart
               (Number.sub x0 (panOffset (editor s)).1,
                Number.sub y0 (panOffset (editor s)).2)
               (setIsPanning true s))).
Proof. apply pan_drag_run. Qed.

(** X13: on whole pixels the drag is exact: pressing at [(a0, b0)] and
    dragging to [(a1, b1)] shifts the pan offset by [(a1 - a0, b1 - b0)],
    so that dragging back to where the press was restores the view. *)
Theorem pan_drag_pixels fuel s button shiftKey (x0 y0 : Q) pts (x1 y1 : Q)
    (a0 b0 a1 b1 px py : Z) :
  button = 1 ∨ shiftKey = true →
  (x0 == inject_Z a0)%Q → (y0 == inject_Z b0)%Q →
  (x1 == inject_Z a1)%Q → (y1 == inject_Z b1)%Q →
  ((panOffset (editor s)).1 == inject_Z px)%Q →
  ((panOffset (editor s)).2 == inject_Z py)%Q →
  (Z.abs a0 ≤ 2 ^ 50 ∧ Z.abs b0 ≤ 2 ^ 50 ∧ Z.abs a1 ≤ 2 ^ 50 ∧
   Z.abs b1 ≤ 2 ^ 50 ∧ Z.abs px ≤ 2 ^ 50 ∧ Z.abs py ≤ 2 ^ 50) →
  ∃ s', handleInputs fuel
          (MouseDown button shiftKey x0 y0
             :: mouseMoves pts ++ [MouseMove x1 y1]) s = Done s' ∧
    grid (editor s') = grid (editor s) ∧
    ((panOffset (editor s')).1 == inject_Z (px + (a1 - a0)))%Q ∧
    ((panOffset (editor s')).2 == inject_Z (py + (b1 - b0)))%Q.
Proof.
  intros Hb Hx0 Hy0 Hx1 Hy1 Hpx Hpy (B1 & B2 & B3 & B4 & B5 & B6).
  eexists. split; [by apply pan_drag_run|]. simpl. split; [done|].
  split.
  - replace (px + (a1 - a0)) with (a1 - (a0 - px)) by lia.
    apply sub_Z; [done| |lia]. apply sub_Z; [done..|lia].
  - replace (py + (b1 - b0)) with (b1 - (b0 - py)) by lia.
    apply sub_Z; [done| |lia]. apply sub_Z; [done..|lia].
Qed.

(** Moves do nothing when no button is down, and when the fill tool is
    selected and no pan is on. *)
Lemma idle_moves fuel l s :
  forallb isMove l = true → isPanning s = false →
  isDrawing s = false ∨ tool (editor s) = fill →
  handleInputs fuel l s = Done s.
Proof.
  intros Hl Hp Hidle. induction l as [|i l IH]; [done|].
  simpl in Hl. apply andb_prop in Hl as [Hi Hl].
  rewrite handleInputs_cons.
  assert (Hstep : handleInput fuel i s = Done s).
  { destruct i; try done; simpl.
    - unfold handleMouseMove. rewrite Hp.
      by destruct Hidle as [-> | ->]; [|rewrite orb_true_r].
    - unfold handleTouchMove.
      by destruct Hidle as [-> | ->]; [|rewrite orb_true_r]. }
  rewrite Hstep. simpl. by apply IH.
Qed.

(** X14: moving the pointer with no button down does nothing: hovering
    never paints and never pans. *)
Theorem hover_does_nothing fuel l s :
  forallb isMove l = true → isPanning s = false → isDrawing s = false →
  handleInputs fuel l s = Done s.
Proof. intros Hl Hp Hd. apply idle_moves; auto. Qed.


(** ** Strokes *)





(** ** Templates *)

(** A loop invariant indexed by the loop variable. *)
Lemma forRange_inv {S : Type} (P : Z → S → Prop) (lo hi : Z)
    (body : Z → S → outcome S) (s : S) :
  lo ≤ hi → P lo s →
  (∀ i s, lo ≤ i < hi → P i s → ∃ s', body i s = Done s' ∧ P (i + 1) s') →
  ∃ s', forRange lo hi body s = Done s' ∧ P hi s'.
Proof.
  intros Hle HP Hbody. unfold forRange.
  remember (Z.to_nat (hi - lo)) as n eqn:Hn.
  revert lo s Hle HP Hbody Hn. induction n as [|n IH]; intros lo s Hle HP Hbody Hn.
  - assert (hi = lo) as -> by lia. rewrite Z.sub_diag. simpl. eauto.
  - rewrite seqZ_cons by lia. simpl.
    destruct (Hbody lo s ltac:(lia) HP) as (s1 & -> & HP1).
    replace (Z.pred (hi - lo)) with (hi - Z.succ lo) by lia.
    apply IH; try lia.
    + by replace (Z.succ lo) with (lo + 1) by lia.
    + intros i s' Hi. apply Hbody. lia.
Qed.

Lemma storeCell_in_canvas g x y c :
  wf_grid g → in_canvas x y →
  ∃ g', storeCell g x y c = Done g' ∧ wf_grid g'.
Proof.
  intros Hwf Hin.
  destruct (storeCell_wf g x y c Hwf Hin) as (g' & ? & ? & _). eauto.
Qed.

Lemma generateHouseTemplate_wf :
  ∃ g, generateHouseTemplate = Done g ∧ wf_grid g.
Proof.
  unfold generateHouseTemplate.
  destruct (forRange_inv (λ _, wf_grid) 25 35
              (λ y, forRange 20 40 (λ x template,
                 if (y =? 25) || (y =? 34) || (x =? 20) || (x =? 39) then
                   storeCell template x y {| blockId := "oak_planks" |}
                 else Done template)) emptyGrid)
    as (g1 & -> & Hwf1); [lia | apply wf_emptyGrid | |].
  { intros y g Hy Hwf.
    apply (forRange_inv (λ _, wf_grid)); [lia | done |].
    intros x g' Hx Hwf'.
    destruct (_ || _); [|eauto].
    apply storeCell_in_canvas; [done|].
    unfold in_canvas, CANVAS_WIDTH, CANVAS_HEIGHT. lia. }
  simpl.
  apply (forRange_inv (λ _, wf_grid)); [lia | done |].
  intros i g Hi Hwf.
  destruct (storeCell_in_canvas g (25 + i) (24 - i) {| blockId := "bricks" |})
    as (g' & -> & Hwf'); [done | |].
  { unfold in_canvas, CANVAS_WIDTH, CANVAS_HEIGHT. lia. }
  simpl. apply storeCell_in_canvas; [done|].
  unfold in_canvas, CANVAS_WIDTH, CANVAS_HEIGHT. lia.
Qed.

Lemma generateSwordTemplate_wf :
  ∃ g, generateSwordTemplate = Done g ∧ wf_grid g.
Proof.
  unfold generateSwordTemplate.
  destruct (forRange_inv (λ _, wf_grid) 0 20
              (λ i template,
                 storeCell template 32 (15 + i) {| blockId := "iron_block" |})
              emptyGrid)
    as (g1 & -> & Hwf1); [lia | apply wf_emptyGrid | |].
  { intros i g Hi Hwf. apply storeCell_in_canvas; [done|].
    unfold in_canvas, CANVAS_WIDTH, CANVAS_HEIGHT. lia. }
  simpl.
  assert (Hin : ∀ x y, 31 ≤ x ≤ 33 → 35 ≤ y ≤ 36 → in_canvas x y).
  { intros. unfold in_canvas, CANVAS_WIDTH, CANVAS_HEIGHT. lia. }
  destruct (storeCell_in_canvas g1 31 35 {| blockId := "brown_wool" |})
    as (g2 & -> & Hwf2); [done | apply Hin; lia |]. simpl.
  destruct (storeCell_in_canvas g2 32 35 {| blockId := "brown_wool" |})
    as (g3 & -> & Hwf3); [done | apply Hin; lia |]. simpl.
  destruct (storeCell_in_canvas g3 33 35 {| blockId := "brown_wool" |})
    as (g4 & -> & Hwf4); [done | apply Hin; lia |]. simpl.
  apply storeCell_in_canvas; [done | apply Hin; lia].
Qed.

Lemma treePartial_ext random yy xx yy' xx' x y :
  (28 ≤ x < 37 → 22 ≤ y < 30 →
   (y < yy ∨ (y = yy ∧ x < xx)) ↔ (y < yy' ∨ (y = yy' ∧ x < xx'))) →
  treePartial random yy xx x y = treePartial random yy' xx' x y.
Proof.
  intros H. unfold treePartial.
  destruct (bool_decide (x = 32 ∧ 30 ≤ y < 40)); [done|].
  assert (He : bool_decide (28 ≤ x < 37 ∧ 22 ≤ y < 30 ∧
                            (y < yy ∨ (y = yy ∧ x < xx)))
               = bool_decide (28 ≤ x < 37 ∧ 22 ≤ y < 30 ∧
                              (y < yy' ∨ (y = yy' ∧ x < xx')))).
  { apply bool_decide_ext. tauto. }
  by rewrite He.
Qed.

(** The tree, cell by cell. *)
Lemma generateTreeTemplate_spec random :
  ∃ g, generateTreeTemplate random = Done g ∧ wf_grid g ∧
    ∀ x y, in_canvas x y → blockAt g x y = Some (treeCell random x y).
Proof.
  unfold generateTreeTemplate.
  (* the trunk *)
  destruct (forRange_inv
              (λ y g, wf_grid g ∧ ∀ x' y', in_canvas x' y' →
                 blockAt g x' y'
                 = Some (if bool_decide (x' = 32 ∧ 30 ≤ y' < y)
                         then "oak_log" else "air")%string)
              30 40
              (λ y template, storeCell template 32 y {| blockId := "oak_log" |})
              emptyGrid)
    as (g1 & -> & Hwf1 & Hc1); [lia | | |].
  { split; [apply wf_emptyGrid|]. intros x' y' Hin.
    rewrite bool_decide_eq_false_2 by lia. by apply emptyGrid_uniform. }
  { intros y g Hy [Hwf Hc].
    destruct (storeCell_wf g 32 y {| blockId := "oak_log" |} Hwf)
      as (g' & -> & Hwf' & Hxy & Ho).
    { unfold in_canvas, CANVAS_WIDTH, CANVAS_HEIGHT. lia. }
    eexists. split; [done|]. split; [done|]. intros x' y' Hin.
    destruct (decide ((x', y') = (32, y))) as [[= -> ->]|Hne].
    - unfold blockAt. rewrite Hxy. simpl.
      by rewrite bool_decide_eq_true_2 by lia.
    - unfold blockAt. rewrite Ho by done. fold (blockAt g x' y').
      rewrite Hc by done. f_equal.
      assert (Hiff : (x' = 32 ∧ 30 ≤ y' < y) ↔ (x' = 32 ∧ 30 ≤ y' < y + 1)).
      { split; intros [-> ?]; (split; [done|]).
        - lia.
        - destruct (decide (y' = y)) as [->|]; [done | lia]. }
      by rewrite (bool_decide_ext _ _ Hiff). }
  cbn [andThen].
  (* the crown *)
  destruct (forRange_inv
              (λ y (st : Grid * nat),
                 wf_grid st.1 ∧ st.2 = Z.to_nat (9 * (y - 22)) ∧
                 ∀ x' y', in_canvas x' y' →
                   blockAt st.1 x' y' = Some (treePartial random y 28 x' y'))
              22 30
              (λ y, forRange 28 37 (λ x st,
                 let '(template, n) := st in
                 if negb (Qle_bool (random n) (Number.lit (3 # 10))) then
                   observe (λ t, (t, S n))
                     (storeCell template x y {| blockId := "oak_log" |})
                 else Done (template, S n)))
              (g1, 0%nat))
    as ([g2 n2] & -> & Hwf2 & _ & Hc2); [lia | | |].
  { split; [done|]. split; [done|]. intros x' y' Hin. simpl.
    rewrite Hc1 by done. f_equal. unfold treePartial.
    destruct (bool_decide (x' = 32 ∧ 30 ≤ y' < 40)); [done|].
    by rewrite bool_decide_eq_false_2 by lia. }
  { intros y [g n] Hy (Hwf & Hn & Hc). simpl in Hwf, Hn, Hc.
    destruct (forRange_inv
                (λ x (st : Grid * nat),
                   wf_grid st.1 ∧
                   st.2 = Z.to_nat (9 * (y - 22) + (x - 28)) ∧
                   ∀ x' y', in_canvas x' y' →
                     blockAt st.1 x' y'
                     = Some (treePartial random y x x' y'))
                28 37
                (λ x st,
                   let '(template, n) := st in
                   if negb (Qle_bool (random n) (Number.lit (3 # 10))) then
                     observe (λ t, (t, S n))
                       (storeCell template x y {| blockId := "oak_log" |})
                   else Done (template, S n))
                (g, n))
      as ([g' n'] & -> & Hwf' & Hn' & Hc'); [lia | | |].
    { split; [done|]. split; [simpl; lia|]. done. }
    { intros x [gx nx] Hx (Hwfx & Hnx & Hcx). simpl in Hwfx, Hnx, Hcx.
      assert (Hin : in_canvas x y).
      { unfold in_canvas, CANVAS_WIDTH, CANVAS_HEIGHT. lia. }
      assert (Hdraw : negb (Qle_bool (random nx) (Number.lit (3 # 10)))
                      = drawn random x y).
      { unfold drawn. by rewrite Hnx. }
      assert (Hhere : treePartial random y (x + 1) x y
                      = if drawn random x y then "oak_log"%string
                        else "air"%string).
      { unfold treePartial. rewrite bool_decide_eq_false_2 by lia.
        by rewrite bool_decide_eq_true_2 by lia. }
      assert (Hnot : treePartial random y x x y = "air"%string).
      { unfold treePartial. rewrite bool_decide_eq_false_2 by lia.
        by rewrite bool_decide_eq_false_2 by lia. }
      assert (Hrest : ∀ x' y', (x', y') ≠ (x, y) →
                treePartial random y x x' y'
                = treePartial random y (x + 1) x' y').
      { intros x' y' Hne. apply treePartial_ext. intros _ _.
        split; (intros [?|[-> ?]]; [by left|right]); split; try done;
          try lia.
        destruct (decide (x' = x)) as [->|]; [done | lia]. }
      rewrite Hdraw. destruct (drawn random x y).
      - destruct (storeCell_wf gx x y {| blockId := "oak_log" |} Hwfx Hin)
          as (g'' & -> & Hwf'' & Hxy & Ho).
        eexists. split; [done|]. simpl. split; [done|]. split; [lia|].
        intros x' y' Hin'.
        destruct (decide ((x', y') = (x, y))) as [[= -> ->]|Hne].
        + unfold blockAt. rewrite Hxy. simpl. by rewrite Hhere.
        + unfold blockAt. rewrite Ho by done. fold (blockAt gx x' y').
          rewrite Hcx by done. f_equal. by apply Hrest.
      - eexists. split; [done|]. simpl. split; [done|]. split; [lia|].
        intros x' y' Hin'. rewrite Hcx by done. f_equal.
        destruct (decide ((x', y') = (x, y))) as [[= -> ->]|Hne].
        + by rewrite Hhere, Hnot.
        + by apply Hrest. }
    eexists. split; [done|]. simpl in *. split; [done|]. split; [lia|].
    intros x' y' Hin. rewrite Hc' by done. f_equal.
    apply treePartial_ext. intros Hx' Hy'. lia. }
  exists g2. split; [done|]. split; [done|]. done.
Qed.

(** X17: the tree template, for every course of [Math.random]: a
    well-formed grid with the trunk in column 32, rows 30 to 39, a log
    at each crown cell (columns 28 to 36 of rows 22 to 29) whose draw
    exceeded 0.3, taking the draws row by row, and "air" everywhere
    else. *)
Theorem generateTreeTemplate_cells random :
  ∃ g, generateTreeTemplate random = Done g ∧ wf_grid g ∧
    ∀ x y, in_canvas x y → blockAt g x y = Some (treeCell random x y).
Proof. apply generateTreeTemplate_spec. Qed.

Lemma templateGrid_wf t : ∃ g, templateGrid t = Done g ∧ wf_grid g.
Proof.
  destruct t as [|random|]; simpl.
  - apply generateHouseTemplate_wf.
  - destruct (generateTreeTemplate_spec random) as (g & ? & ? & _). eauto.
  - apply generateSwordTemplate_wf.
Qed.

(** X18: every template of the gallery is generated without an error
    and is a well-formed grid, whatever [Math.random] returns for the
    tree. *)
Theorem templateGrid_well_formed t :
  ∃ g, templateGrid t = Done g ∧ wf_grid g.
Proof. apply templateGrid_wf. Qed.

(** ** The component keeps its state sound *)

Lemma applyZoom_clamped z c :
  (1 # 4 <= z)%Q → (z <= 5)%Q →
  (1 # 4 <= applyZoom z c)%Q ∧ (applyZoom z c <= 5)%Q.
Proof.
  intros Hlo Hhi. destruct c as [deltaY| | | |]; simpl.
  - apply handleWheel_clamped.
  - by apply zoomOutClick_clamped.
  - by apply zoomInClick_clamped.
  - split; lra.
  - split; lra.
Qed.

Lemma click_ok fuel s e (f : Grid → Session) :
  (enoughFuel ≤ fuel)%nat → session_ok s →
  (∀ g, wf_grid g → session_ok (f g)) →
  ∃ s', observe f (handleCanvasClick fuel (editor s) e) = Done s' ∧
        session_ok s'.
Proof.
  intros Hfuel (Hwf & Hz) Hf.
  destruct (handleCanvasClick_spec fuel (editor s) e Hwf Hfuel)
    as (g' & -> & Hwf' & _).
  simpl. eauto.
Qed.

Lemma handleInput_ok fuel i s :
  (enoughFuel ≤ fuel)%nat → session_ok s →
  ∃ s', handleInput fuel i s = Done s' ∧ session_ok s'.
Proof.
  intros Hfuel Hok. pose proof Hok as (Hwf & Hz1 & Hz2).
  destruct i; simpl.
  - unfold handleMouseDown. destruct (_ || _); [by eexists|].
    apply click_ok; try done; by intros g Hg.
  - unfold handleMouseMove. destruct (isPanning s); [by eexists|].
    destruct (_ || _); [by eexists|].
    apply click_ok; try done; by intros g Hg.
  - by eexists.
  - unfold handleTouchStart. apply click_ok; try done; by intros g Hg.
  - unfold handleTouchMove. destruct (_ || _); [by eexists|].
    apply click_ok; try done; by intros g Hg.
  - by eexists.
  - pose proof (applyZoom_clamped (zoom (editor s)) c Hz1 Hz2) as [H1 H2].
    destruct c; (eexists; split; [done|]; split; [done|]; simpl in *;
                 split; first [done | lra]).
  - by eexists.
  - by eexists.
  - by eexists.
  - by eexists.
  - eexists. split; [done|]. split; [apply wf_emptyGrid | done].
  - destruct (templateGrid_wf t) as (g & -> & Hg). by eexists.
  - by eexists.
Qed.

(** One input multiplies the bound on the coordinates of the state by
    at most 4: a press that starts a pan stores [client - panOffset], a
    move of a pan [client - panStart], and nothing else computes a
    coordinate. *)
Lemma handleInput_within fuel i s s' (M : Q) :
  (1 <= M)%Q → session_within M s → input_within M i →
  handleInput fuel i s = Done s' → session_within (4 * M) s'.
Proof.
  intros HM Hs Hi Hrun.
  assert (HM4 : (M <= 4 * M)%Q) by lra.
  pose proof (session_within_mono _ _ s HM4 Hs) as Hs4.
  pose proof Hs as (Hpan & Hstart & Hcanvas).
  assert (Hgrid : ∀ (f : Grid → Session) o,
            (∀ g, session_within (4 * M) (f g)) →
            observe f o = Done s' → session_within (4 * M) s').
  { intros f [g| |] Hf; simpl; [intros [= <-]; apply Hf | done..]. }
  destruct i; simpl in Hrun.
  - unfold handleMouseDown in Hrun. destruct (_ || _).
    + injection Hrun as <-. destruct Hs4 as (Hpan4 & _ & Hcanvas4).
      split; [done|]. split; [|done].
      destruct Hi as [Hx Hy], Hpan as [Hp1 Hp2].
      split; by apply sub_within.
    + by apply Hgrid in Hrun.
  - unfold handleMouseMove in Hrun. destruct (isPanning s).
    + injection Hrun as <-. destruct Hs4 as (_ & Hstart4 & Hcanvas4).
      split; [|done].
      destruct Hi as [Hx Hy], Hstart as [Hp1 Hp2].
      split; by apply sub_within.
    + destruct (_ || _); [by injection Hrun as <-|].
      by apply Hgrid in Hrun.
  - by injection Hrun as <-.
  - by apply Hgrid in Hrun.
  - unfold handleTouchMove in Hrun.
    destruct (_ || _); [by injection Hrun as <-|].
    by apply Hgrid in Hrun.
  - by injection Hrun as <-.
  - destruct Hs4 as (Hpan4 & Hstart4 & Hcanvas4).
    destruct c; injection Hrun as <-; try done.
    split; [|done]. split; apply within_0; lra.
  - by injection Hrun as <-.
  - by injection Hrun as <-.
  - by injection Hrun as <-.
  - by injection Hrun as <-.
  - by injection Hrun as <-.
  - by apply Hgrid in Hrun.
  - injection Hrun as <-. destruct Hs4 as (Hpan4 & Hstart4 & _).
    split; [done|]. split; [done|].
    by apply (canvas_within_mono M).
Qed.

Lemma input_within_mono (B B' : Q) i :
  (B <= B')%Q → input_within B i → input_within B' i.
Proof.
  intros HB. destruct i; simpl; try done.
  - by apply point_within_mono.
  - by apply point_within_mono.
  - unfold event_within. destruct (clientPoint _); [|done].
    by apply point_within_mono.
  - unfold event_within. destruct (clientPoint _); [|done].
    by apply point_within_mono.
  - by apply canvas_within_mono.
Qed.

(** A run keeps the state sound, and its coordinates within the bound
    at the start times 4 for each input. *)
Lemma handleInputs_within fuel inputs :
  (enoughFuel ≤ fuel)%nat →
  ∀ s (M : Q), session_ok s → (1 <= M)%Q → session_within M s →
    Forall (input_within M) inputs →
    ∃ s', handleInputs fuel inputs s = Done s' ∧ session_ok s' ∧
          session_within (M * 4 ^ Z.of_nat (length inputs)) s'.
Proof.
  intros Hfuel. induction inputs as [|i l IH]; intros s M Hok HM Hs Hl.
  - exists s. split; [done|]. split; [done|].
    apply (session_within_mono M); [|done].
    change (4 ^ Z.of_nat (length (@nil Input)))%Q with 1%Q. lra.
  - apply Forall_cons in Hl as [Hi Hl].
    rewrite handleInputs_cons.
    destruct (handleInput_ok fuel i s Hfuel Hok) as (s1 & Hrun & Hok1).
    pose proof (handleInput_within fuel i s s1 M HM Hs Hi Hrun) as Hs1.
    rewrite Hrun. cbn [andThen].
    destruct (IH s1 (4 * M)%Q Hok1) as (s' & Hrun' & Hok' & Hs'); [lra|done| |].
    { eapply Forall_impl; [exact Hl|]. intros j.
      apply input_within_mono. lra. }
    exists s'. split; [done|]. split; [done|].
    eapply session_within_mono; [|exact Hs'].
    assert (Hpow : (4 ^ Z.of_nat (length (i :: l))
                    == 4 * 4 ^ Z.of_nat (length l))%Q).
    { cbn [length]. rewrite Nat2Z.inj_succ, <- Z.add_1_l.
      by rewrite Qpower_plus. }
    rewrite Hpow. lra.
Qed.

(** X19: no run of the component makes a handler throw or leaves its
    state unsound.  From a state with a 48 x 64 grid, a zoom in
    [0.25, 5] and coordinates within [B], for inputs (presses, moves,
    releases, touches, wheel turns, zoom and tool buttons, clearing,
    loading a template, the canvas being mounted or moved) whose
    coordinates are within [B], as long as [B * 4^n] for the [n] inputs
    does not exceed [2^1000], every handler returns, and afterwards the
    grid still has its 48 rows of 64 cells, the zoom is within
    [0.25, 5] and the coordinates of the state are in range. *)
Theorem handleInputs_safe fuel inputs s (B : Q) :
  (enoughFuel ≤ fuel)%nat → session_ok s →
  (1 <= B)%Q → (B * 4 ^ Z.of_nat (length inputs) <= finiteRange)%Q →
  session_within B s → Forall (input_within B) inputs →
  ∃ s', handleInputs fuel inputs s = Done s' ∧ session_ok s' ∧
        session_within finiteRange s'.
Proof.
  intros Hfuel Hok HB Hrange Hs Hl.
  destruct (handleInputs_within fuel inputs Hfuel s B Hok HB Hs Hl)
    as (s' & Hrun & Hok' & Hs').
  exists s'. split; [done|]. split; [done|].
  by apply (session_within_mono _ _ s' Hrange).
Qed.

(** X20: after clearCanvas every cell of the canvas holds "air", on a
    well-formed grid. *)
Theorem clearCanvas_all_air s x y :
  in_canvas x y →
  blockAt (grid (editor (clearCanvas s))) x y = Some "air"%string ∧
  wf_grid (grid (editor (clearCanvas s))).
Proof.
  intros Hin. split; [by apply emptyGrid_uniform | apply wf_emptyGrid].
Qed.

(** X21: a release ends the gesture, whichever it was: after it, moves
    change nothing until the next press. *)
Theorem release_ends_gesture fuel l s :
  forallb isMove l = true →
  handleInputs fuel (MouseUp :: l) s = Done (handleMouseUp s).
Proof.
  intros Hl. rewrite handleInputs_cons. simpl.
  apply idle_moves; [done..|]. by left.
Qed.

(** X22: hit-testing is robust around the centre of a cell: for a zoom
    in [0.25, 5] and any pan offset, a pointer whose position relative to
    the canvas is within 1.1 of the centre of the cell, on each axis, is
    mapped to that cell. *)
Theorem getCanvasCoordinates_near_centre ed rect (clientX clientY : Q)
    row col :
  canvasRef ed = Some rect →
  (1 # 4 <= zoom ed)%Q → (zoom ed <= 5)%Q →
  in_canvas col row →
  (Qabs (Number.sub clientX (rect_left rect)
         - ((inject_Z col * 16 + 8) * zoom ed + (panOffset ed).1))
   <= 11 # 10)%Q →
  (Qabs (Number.sub clientY (rect_top rect)
         - ((inject_Z row * 16 + 8) * zoom ed + (panOffset ed).2))
   <= 11 # 10)%Q →
  getCanvasCoordinates ed clientX clientY = Some (col, row).
Proof.
  intros Hc Hzlo Hzhi [Hcol Hrow] Hx Hy.
  unfold CANVAS_WIDTH, CANVAS_HEIGHT in *.
  unfold getCanvasCoordinates. rewrite Hc. f_equal. f_equal.
  - apply axis_roundtrip; [lia | done..].
  - apply axis_roundtrip; [lia | done..].
Qed.

(** ** Instances of the further properties *)

Lemma cellAt_gridOf f x y :
  in_canvas x y → cellAt (gridOf f) x y = Some (f x y).
Proof.
  intros [Hx Hy]. unfold cellAt, Js.get, gridOf.
  rewrite make_lookup. destruct (decide (0 ≤ y < CANVAS_HEIGHT)); [|lia].
  cbv [mbind option_bind]. rewrite make_lookup.
  destruct (decide (0 ≤ x < CANVAS_WIDTH)); [reflexivity | lia].
Qed.

Lemma wf_gridOf f : wf_grid (gridOf f).
Proof.
  unfold gridOf. split; [done|]. split.
  - intros y. rewrite make_lookup.
    case_decide; split; intros H'; first [done | lia | by destruct H'].
  - intros y r. rewrite make_lookup.
    case_decide; [|done]. intros [= <-]. split; [done|].
    intros x. rewrite make_lookup.
    case_decide; split; intros H'; first [done | lia | by destruct H'].
Qed.

Lemma in_canvas_5_5 : in_canvas 5 5.
Proof. unfold in_canvas, CANVAS_WIDTH, CANVAS_HEIGHT. lia. Qed.

Lemma in_canvas_6_5 : in_canvas 6 5.
Proof. unfold in_canvas, CANVAS_WIDTH, CANVAS_HEIGHT. lia. Qed.

Lemma paintCell_last_wins_witness :
  wf_grid emptyGrid ∧ in_canvas 5 5 ∧ eraser ≠ fill ∧
  andThen (paintCell brush (block "stone") 5 5 emptyGrid)
    (paintCell eraser (block "stone") 5 5)
  = paintCell eraser (block "stone") 5 5 emptyGrid.
Proof.
  split; [apply wf_emptyGrid|]. split; [apply in_canvas_5_5|].
  split; [discriminate|].
  apply (paintCell_last_wins brush (block "stone") eraser (block "stone")
           5 5 emptyGrid).
  - apply wf_emptyGrid.
  - apply in_canvas_5_5.
  - discriminate.
Defined.

Lemma paintCell_commute_witness :
  wf_grid emptyGrid ∧ in_canvas 5 5 ∧ in_canvas 6 5 ∧
  (5, 5) ≠ (6, 5) ∧
  andThen (paintCell brush (block "stone") 5 5 emptyGrid)
    (paintCell brush (block "dirt") 6 5)
  = andThen (paintCell brush (block "dirt") 6 5 emptyGrid)
      (paintCell brush (block "stone") 5 5).
Proof.
  split; [apply wf_emptyGrid|]. split; [apply in_canvas_5_5|].
  split; [apply in_canvas_6_5|]. split; [discriminate|].
  apply (paintCell_commute brush (block "stone") 5 5
           brush (block "dirt") 6 5 emptyGrid).
  - apply wf_emptyGrid.
  - apply in_canvas_5_5.
  - apply in_canvas_6_5.
  - discriminate.
Defined.

Lemma floodFill_exact_witness :
  wf_grid emptyGrid ∧ in_canvas 0 0 ∧
  blockAt emptyGrid 0 0 = Some "air"%string ∧
  (enoughFuel ≤ enoughFuel)%nat ∧
  ∃ g', floodFill enoughFuel fill (block "water") 0 0 emptyGrid = Done g' ∧
    wf_grid g' ∧
    (∀ x y, connected emptyGrid "air" (0, 0) (x, y) →
       blockAt g' x y = Some (replacementOf fill (block "water"))) ∧
    (∀ x y, ¬ connected emptyGrid "air" (0, 0) (x, y) →
       cellAt g' x y = cellAt emptyGrid x y).
Proof.
  split; [apply wf_emptyGrid|]. split; [apply in_canvas_origin|].
  split; [vm_compute; reflexivity|]. split; [lia|].
  apply (floodFill_exact enoughFuel fill (block "water") 0 0 emptyGrid "air").
  - apply wf_emptyGrid.
  - apply in_canvas_origin.
  - vm_compute; reflexivity.
  - lia.
Defined.

Lemma oneStone_isolated q :
  adjacent (5, 5) q → in_canvas q.1 q.2 →
  blockAt oneStone q.1 q.2 ≠ Some "stone"%string.
Proof.
  intros Hadj Hin. unfold blockAt, oneStone.
  rewrite cellAt_gridOf by done.
  by destruct Hadj as [-> | [-> | [-> | ->]]].
Qed.

Lemma floodFill_isolated_witness :
  wf_grid oneStone ∧ in_canvas 5 5 ∧
  blockAt oneStone 5 5 = Some "stone"%string ∧
  (∀ q, adjacent (5, 5) q → in_canvas q.1 q.2 →
        blockAt oneStone q.1 q.2 ≠ Some "stone"%string) ∧
  (enoughFuel ≤ enoughFuel)%nat ∧
  ∃ g', floodFill enoughFuel fill (block "water") 5 5 oneStone = Done g' ∧
    blockAt g' 5 5 = Some (replacementOf fill (block "water")) ∧
    ∀ x y, (x, y) ≠ (5, 5) → cellAt g' x y = cellAt oneStone x y.
Proof.
  assert (Hs : blockAt oneStone 5 5 = Some "stone"%string).
  { unfold blockAt, oneStone. by rewrite cellAt_gridOf by apply in_canvas_5_5. }
  split; [apply wf_gridOf|]. split; [apply in_canvas_5_5|].
  split; [exact Hs|]. split; [apply oneStone_isolated|]. split; [lia|].
  apply (floodFill_isolated enoughFuel fill (block "water") 5 5 oneStone
           "stone").
  - apply wf_gridOf.
  - apply in_canvas_5_5.
  - exact Hs.
  - apply oneStone_isolated.
  - lia.
Defined.

Lemma emptyGrid_no_water x y :
  in_canvas x y → blockAt emptyGrid x y ≠ Some "water"%string.
Proof. intros Hin. by rewrite emptyGrid_uniform. Qed.

Lemma floodFill_undo_witness :
  wf_grid emptyGrid ∧ in_canvas 0 0 ∧
  blockAt emptyGrid 0 0 = Some "air"%string ∧
  (∀ x y, in_canvas x y →
     blockAt emptyGrid x y ≠ Some (replacementOf fill (block "water"))) ∧
  replacementOf eraser (block "water") = "air"%string ∧
  (enoughFuel ≤ enoughFuel)%nat ∧
  andThen (floodFill enoughFuel fill (block "water") 0 0 emptyGrid)
    (floodFill enoughFuel eraser (block "water") 0 0)
  = Done emptyGrid.
Proof.
  split; [apply wf_emptyGrid|]. split; [apply in_canvas_origin|].
  split; [vm_compute; reflexivity|]. split; [apply emptyGrid_no_water|].
  split; [reflexivity|]. split; [lia|].
  apply (floodFill_undo enoughFuel fill (block "water") eraser (block "water")
           0 0 emptyGrid "air").
  - apply wf_emptyGrid.
  - apply in_canvas_origin.
  - vm_compute; reflexivity.
  - apply emptyGrid_no_water.
  - reflexivity.
  - lia.
Defined.

Lemma initialSession_ok b c : session_ok (initialSession b c).
Proof. split; [apply wf_emptyGrid|]. simpl. split; lra. Qed.

Lemma handleCanvasClick_nothing_to_hit_witness :
  (clientPoint (TouchEvent []) = None ∨
   canvasRef (editor (initialSession (block "stone") None)) = None) ∧
  handleCanvasClick 0 (editor (initialSession (block "stone") None))
    (TouchEvent [])
  = Done (grid (editor (initialSession (block "stone") None))).
Proof.
  split; [by left|].
  apply (handleCanvasClick_nothing_to_hit 0
           (editor (initialSession (block "stone") None)) (TouchEvent [])).
  by left.
Defined.

Lemma getCanvasCoordinates_pixels_witness :
  let ed := {| grid := emptyGrid; selectedBlock := block "stone";
               tool := brush; zoom := 2; panOffset := (3%Q, (-4)%Q);
               canvasRef := Some {| rect_left := 10; rect_top := 20 |} |} in
  canvasRef ed = Some {| rect_left := 10; rect_top := 20 |} ∧
  (zoom ed == 2 ^ 1)%Q ∧ -2 ≤ 1 ≤ 2 ∧
  (100 == inject_Z 100)%Q ∧ (200 == inject_Z 200)%Q ∧
  (10 == inject_Z 10)%Q ∧ (20 == inject_Z 20)%Q ∧
  ((panOffset ed).1 == inject_Z 3)%Q ∧ ((panOffset ed).2 == inject_Z (-4))%Q ∧
  (Z.abs 100 ≤ 2 ^ 50 ∧ Z.abs 200 ≤ 2 ^ 50 ∧ Z.abs 10 ≤ 2 ^ 50 ∧
   Z.abs 20 ≤ 2 ^ 50 ∧ Z.abs 3 ≤ 2 ^ 50 ∧ Z.abs (-4) ≤ 2 ^ 50) ∧
  getCanvasCoordinates ed 100 200 = Some (2, 5).
Proof.
  assert (Hb : Z.abs 100 ≤ 2 ^ 50 ∧ Z.abs 200 ≤ 2 ^ 50 ∧ Z.abs 10 ≤ 2 ^ 50 ∧
               Z.abs 20 ≤ 2 ^ 50 ∧ Z.abs 3 ≤ 2 ^ 50 ∧ Z.abs (-4) ≤ 2 ^ 50)
    by lia.
  simpl. split; [reflexivity|]. split; [reflexivity|]. split; [lia|].
  do 6 (split; [reflexivity|]). split; [exact Hb|].
  apply (getCanvasCoordinates_pixels
           {| grid := emptyGrid; selectedBlock := block "stone";
              tool := brush; zoom := 2; panOffset := (3%Q, (-4)%Q);
              canvasRef := Some {| rect_left := 10; rect_top := 20 |} |}
           {| rect_left := 10; rect_top := 20 |}
           100 200 100 200 10 20 3 (-4) 1);
    first [reflexivity | lia | exact Hb].
Defined.

Lemma zoom_buttons_inverse_witness :
  (1 == inject_Z 4 / 4)%Q ∧ 1 ≤ 4 ≤ 20 ∧
  (2 ≤ 4 → (zoomInClick (zoomOutClick 1) == 1)%Q) ∧
  (4 ≤ 19 → (zoomOutClick (zoomInClick 1) == 1)%Q).
Proof.
  split; [reflexivity|]. split; [lia|].
  apply (zoom_buttons_inverse 1 4); [reflexivity | lia].
Defined.

Lemma handleWheel_step_witness :
  (1 # 4 <= 1)%Q ∧ (1 <= 5)%Q ∧
  (handleWheel 1 1 <= 1)%Q ∧
  (1 - handleWheel 1 1 <= (1 # 10) + (1 # 1000000000000000))%Q.
Proof.
  split; [vm_compute; discriminate|]. split; [vm_compute; discriminate|].
  apply (handleWheel_step 1 1); vm_compute; discriminate.
Defined.

Lemma pan_drag_witness :
  (1 = 1 ∨ false = true) ∧
  handleInputs 0
    (MouseDown 1 false 100 100
       :: mouseMoves [(110%Q, 105%Q)] ++ [MouseMove 130 90])
    (initialSession (block "stone") None)
  = Done (setPanOffset
            (Number.sub 130 (Number.sub 100 0), Number.sub 90 (Number.sub 100 0))
            (setPanStart (Number.sub 100 0, Number.sub 100 0)
               (setIsPanning true (initialSession (block "stone") None)))).
Proof.
  split; [by left|].
  apply (pan_drag 0 (initialSession (block "stone") None) 1 false 100 100
           [(110%Q, 105%Q)] 130 90).
  by left.
Defined.

Lemma pan_drag_pixels_witness :
  let s := initialSession (block "stone") None in
  (1 = 1 ∨ false = true) ∧
  (100 == inject_Z 100)%Q ∧ (100 == inject_Z 100)%Q ∧
  (130 == inject_Z 130)%Q ∧ (90 == inject_Z 90)%Q ∧
  ((panOffset (editor s)).1 == inject_Z 0)%Q ∧
  ((panOffset (editor s)).2 == inject_Z 0)%Q ∧
  (Z.abs 100 ≤ 2 ^ 50 ∧ Z.abs 100 ≤ 2 ^ 50 ∧ Z.abs 130 ≤ 2 ^ 50 ∧
   Z.abs 90 ≤ 2 ^ 50 ∧ Z.abs 0 ≤ 2 ^ 50 ∧ Z.abs 0 ≤ 2 ^ 50) ∧
  ∃ s', handleInputs 0
          (MouseDown 1 false 100 100
             :: mouseMoves [(110%Q, 105%Q)] ++ [MouseMove 130 90]) s
        = Done s' ∧
    grid (editor s') = grid (editor s) ∧
    ((panOffset (editor s')).1 == inject_Z (0 + (130 - 100)))%Q ∧
    ((panOffset (editor s')).2 == inject_Z (0 + (90 - 100)))%Q.
Proof.
  assert (Hb : Z.abs 100 ≤ 2 ^ 50 ∧ Z.abs 100 ≤ 2 ^ 50 ∧ Z.abs 130 ≤ 2 ^ 50 ∧
               Z.abs 90 ≤ 2 ^ 50 ∧ Z.abs 0 ≤ 2 ^ 50 ∧ Z.abs 0 ≤ 2 ^ 50)
    by lia.
  cbv zeta. split; [by left|]. do 6 (split; [reflexivity|]).
  split; [exact Hb|].
  apply (pan_drag_pixels 0 (initialSession (block "stone") None) 1 false
           100 100 [(110%Q, 105%Q)] 130 90 100 100 130 90 0 0);
    first [by left | reflexivity | exact Hb].
Defined.

Lemma hover_does_nothing_witness :
  let s := initialSession (block "stone") None in
  forallb isMove [MouseMove 10 10; TouchMove [(3%Q, 4%Q)]] = true ∧
  isPanning s = false ∧ isDrawing s = false ∧
  handleInputs 0 [MouseMove 10 10; TouchMove [(3%Q, 4%Q)]] s = Done s.
Proof.
  cbv zeta. split; [reflexivity|]. split; [reflexivity|].
  split; [reflexivity|].
  apply (hover_does_nothing 0 [MouseMove 10 10; TouchMove [(3%Q, 4%Q)]]
           (initialSession (block "stone") None)); reflexivity.
Defined.

Lemma clearCanvas_all_air_witness :
  let s := initialSession (block "stone") None in
  in_canvas 5 5 ∧
  blockAt (grid (editor (clearCanvas s))) 5 5 = Some "air"%string ∧
  wf_grid (grid (editor (clearCanvas s))).
Proof.
  cbv zeta. split; [apply in_canvas_5_5|].
  apply (clearCanvas_all_air (initialSession (block "stone") None) 5 5).
  apply in_canvas_5_5.
Defined.

Lemma release_ends_gesture_witness :
  let s := initialSession (block "stone") None in
  forallb isMove [MouseMove 10 10] = true ∧
  handleInputs 0 [MouseUp; MouseMove 10 10] s = Done (handleMouseUp s).
Proof.
  cbv zeta. split; [reflexivity|].
  apply (release_ends_gesture 0 [MouseMove 10 10]
           (initialSession (block "stone") None)).
  reflexivity.
Defined.

Lemma getCanvasCoordinates_near_centre_witness :
  let ed := {| grid := emptyGrid; selectedBlock := block "stone";
               tool := brush; zoom := 1; panOffset := (0%Q, 0%Q);
               canvasRef := Some {| rect_left := 0; rect_top := 0 |} |} in
  canvasRef ed = Some {| rect_left := 0; rect_top := 0 |} ∧
  (1 # 4 <= zoom ed)%Q ∧ (zoom ed <= 5)%Q ∧ in_canvas 1 0 ∧
  (Qabs (Number.sub 25 0 - ((inject_Z 1 * 16 + 8) * zoom ed + (panOffset ed).1))
   <= 11 # 10)%Q ∧
  (Qabs (Number.sub 7 0 - ((inject_Z 0 * 16 + 8) * zoom ed + (panOffset ed).2))
   <= 11 # 10)%Q ∧
  getCanvasCoordinates ed 25 7 = Some (1, 0).
Proof.
  assert (Hin : in_canvas 1 0).
  { unfold in_canvas, CANVAS_WIDTH, CANVAS_HEIGHT. lia. }
  cbv zeta. split; [reflexivity|].
  split; [vm_compute; discriminate|]. split; [vm_compute; discriminate|].
  split; [exact Hin|].
  split; [vm_compute; discriminate|]. split; [vm_compute; discriminate|].
  apply (getCanvasCoordinates_near_centre
           {| grid := emptyGrid; selectedBlock := block "stone";
              tool := brush; zoom := 1; panOffset := (0%Q, 0%Q);
              canvasRef := Some {| rect_left := 0; rect_top := 0 |} |}
           {| rect_left := 0; rect_top := 0 |} 25 7 0 1);
    first [reflexivity | exact Hin | vm_compute; discriminate].
Defined.

(** ** Instances on a mounted canvas *)

Ltac in_range :=
  unfold view_within, session_within, event_within, canvas_within,
    point_within, within; simpl;
  repeat split; vm_compute; discriminate.

Lemma mounted_view t : view_within finiteRange (editor (mounted t)).
Proof. in_range. Qed.

Lemma mounted_ok t : session_ok (mounted t).
Proof. split; [apply wf_emptyGrid|]. simpl. split; lra. Qed.

Lemma click_in_range : event_within finiteRange (MouseEvent 34 28).
Proof. in_range. Qed.

(** The pointer at (34, 28) is over the cell in column 1, row 0. *)
Example click_cell :
  getCanvasCoordinates (editor (mounted fill)) 34 28 = Some (1, 0).
Proof. vm_compute. reflexivity. Qed.

Lemma handleCanvasClick_safe_witness :
  wf_grid (grid (editor (mounted fill))) ∧ (enoughFuel ≤ enoughFuel)%nat ∧
  view_within finiteRange (editor (mounted fill)) ∧
  event_within finiteRange (MouseEvent 34 28) ∧
  ∃ g', handleCanvasClick enoughFuel (editor (mounted fill)) (MouseEvent 34 28)
        = Done g' ∧ wf_grid g'.
Proof.
  split; [apply wf_emptyGrid|]. split; [lia|].
  split; [apply mounted_view|]. split; [apply click_in_range|].
  apply (handleCanvasClick_safe enoughFuel (editor (mounted fill))
           (MouseEvent 34 28)).
  - apply wf_emptyGrid.
  - lia.
  - apply mounted_view.
  - apply click_in_range.
Defined.

Lemma handleCanvasClick_paints_under_pointer_witness :
  wf_grid (grid (editor (mounted brush))) ∧
  tool (editor (mounted brush)) ≠ fill ∧
  view_within finiteRange (editor (mounted brush)) ∧
  event_within finiteRange (MouseEvent 34 28) ∧
  ∃ g', handleCanvasClick 0 (editor (mounted brush)) (MouseEvent 34 28)
        = Done g' ∧
    ∀ x y, cellAt g' x y ≠ cellAt (grid (editor (mounted brush))) x y →
      (∃ cx cy, clientPoint (MouseEvent 34 28) = Some (cx, cy) ∧
                getCanvasCoordinates (editor (mounted brush)) cx cy
                = Some (x, y)) ∧
      in_canvas x y ∧
      blockAt g' x y
      = Some (replacementOf (tool (editor (mounted brush)))
                (selectedBlock (editor (mounted brush)))).
Proof.
  split; [apply wf_emptyGrid|]. split; [discriminate|].
  split; [apply mounted_view|]. split; [apply click_in_range|].
  apply (handleCanvasClick_paints_under_pointer 0 (editor (mounted brush))
           (MouseEvent 34 28)).
  - apply wf_emptyGrid.
  - discriminate.
  - apply mounted_view.
  - apply click_in_range.
Defined.

(** What that click does: the cell under the pointer holds "stone"
    afterwards, and it is the only one. *)
Example click_paints_example :
  observe (λ g', (blockAt g' 1 0, Z.of_nat (targetCount g' "stone")))
    (handleCanvasClick 0 (editor (mounted brush)) (MouseEvent 34 28))
  = Done (Some "stone"%string, 1).
Proof. vm_compute. reflexivity. Qed.


(** That press fills: all 3072 cells of the empty canvas hold "stone"
    after it, and the drawing flag is set. *)
Example fill_press_example :
  observe (λ s', (Z.of_nat (targetCount (grid (editor s')) "stone"),
                  isDrawing s'))
    (handleInput enoughFuel (MouseDown 0 false 34 28) (mounted fill))
  = Done (3072, true).
Proof. vm_compute. reflexivity. Qed.



(** The cells of that stroke: (1, 0), (2, 0) and (4, 0); the pointer
    skipped (3, 0), which stays "air". *)
Example stroke_cells_example :
  strokeCells (editor (mounted brush))
    [(34%Q, 28%Q); (50%Q, 28%Q); (82%Q, 28%Q)] = [(1, 0); (2, 0); (4, 0)].
Proof. vm_compute. reflexivity. Qed.

Example stroke_example :
  observe (λ s', let g' := grid (editor s') in
                 [blockAt g' 1 0; blockAt g' 2 0; blockAt g' 3 0;
                  blockAt g' 4 0])
    (handleInputs 0
       (MouseDown 0 false 34 28 :: mouseMoves [(50%Q, 28%Q); (82%Q, 28%Q)])
       (mounted brush))
  = Done [Some "stone"; Some "stone"; Some "air"; Some "stone"]%string.
Proof. vm_compute. reflexivity. Qed.

Lemma sampleRun_in_range : Forall (input_within 1024) sampleRun.
Proof. repeat constructor; in_range. Qed.

Lemma mounted_within t : session_within 1024 (mounted t).
Proof. in_range. Qed.

Lemma sampleRun_bound :
  (1024 * 4 ^ Z.of_nat (length sampleRun) <= finiteRange)%Q.
Proof. by vm_compute. Qed.

Lemma handleInputs_safe_witness :
  (enoughFuel ≤ enoughFuel)%nat ∧ session_ok (mounted brush) ∧
  (1 <= 1024)%Q ∧
  (1024 * 4 ^ Z.of_nat (length sampleRun) <= finiteRange)%Q ∧
  session_within 1024 (mounted brush) ∧
  Forall (input_within 1024) sampleRun ∧
  ∃ s', handleInputs enoughFuel sampleRun (mounted brush) = Done s' ∧
        session_ok s' ∧ session_within finiteRange s'.
Proof.
  split; [lia|]. split; [apply mounted_ok|]. split; [by vm_compute|].
  split; [apply sampleRun_bound|]. split; [apply mounted_within|].
  split; [apply sampleRun_in_range|].
  apply (handleInputs_safe enoughFuel sampleRun (mounted brush) 1024).
  - lia.
  - apply mounted_ok.
  - by vm_compute.
  - apply sampleRun_bound.
  - apply mounted_within.
  - apply sampleRun_in_range.
Defined.

(** ** Region isolation on two blocks *)

(** [twoBlocksGrid] holds what the strokes of [twoBlocks] paint. *)
Example twoBlocks_cells :
  observe (λ g, forallb (λ p, bool_decide (blockAt g p.1 p.2
                                           = blockAt twoBlocksGrid p.1 p.2))
                  canvasCells) twoBlocks = Done true.
Proof. vm_compute. reflexivity. Qed.

Lemma in_canvas_3_3 : in_canvas 3 3.
Proof. unfold in_canvas, CANVAS_WIDTH, CANVAS_HEIGHT. lia. Qed.

Lemma twoBlocksGrid_start : blockAt twoBlocksGrid 3 3 = Some "stone"%string.
Proof.
  unfold blockAt, twoBlocksGrid. by rewrite cellAt_gridOf by apply in_canvas_3_3.
Qed.

(** The region of (3, 3) is the first block: no cell of the second, and
    no "air", is linked to it. *)
Lemma twoBlocksGrid_region x y :
  connected twoBlocksGrid "stone" (3, 3) (x, y) → 2 ≤ x < 5 ∧ 2 ≤ y < 5.
Proof.
  intros Hc. remember (x, y) as p eqn:Hp. revert x y Hp.
  induction Hc as [|[px py] [qx qy] Hc IH Hadj Hq Hqt]; intros x y Hp.
  - injection Hp as <- <-. lia.
  - injection Hp as -> ->. destruct (IH px py eq_refl) as [Hx Hy].
    simpl in Hq, Hqt. unfold blockAt, twoBlocksGrid in Hqt.
    rewrite cellAt_gridOf in Hqt by done. simpl in Hqt.
    destruct (((2 <=? x) && (x <? 5) || (10 <=? x) && (x <? 13))
              && (2 <=? y) && (y <? 5)) eqn:Hb; [|done].
    rewrite !andb_true_iff, orb_true_iff, !andb_true_iff, !Z.leb_le,
      !Z.ltb_lt in Hb.
    unfold adjacent in Hadj. simpl in Hadj.
    destruct Hadj as [[= -> ->]|[[= -> ->]|[[= -> ->]|[= -> ->]]]]; lia.
Qed.

Lemma floodFill_region_isolation_witness :
  wf_grid twoBlocksGrid ∧ in_canvas 3 3 ∧
  blockAt twoBlocksGrid 3 3 = Some "stone"%string ∧
  (enoughFuel ≤ enoughFuel)%nat ∧
  ∃ g', floodFill enoughFuel fill (block "gold_block") 3 3 twoBlocksGrid
        = Done g' ∧
    ∀ x y, ¬ connected twoBlocksGrid "stone" (3, 3) (x, y) →
           cellAt g' x y = cellAt twoBlocksGrid x y.
Proof.
  split; [apply wf_gridOf|]. split; [apply in_canvas_3_3|].
  split; [apply twoBlocksGrid_start|]. split; [lia|].
  apply (floodFill_region_isolation enoughFuel fill (block "gold_block") 3 3
           twoBlocksGrid "stone").
  - apply wf_gridOf.
  - apply in_canvas_3_3.
  - apply twoBlocksGrid_start.
  - lia.
Defined.

(** The cells of the second block, and the "air" between the blocks, are
    not linked to (3, 3): the fill leaves them as they were. *)
Example second_block_not_connected :
  ¬ connected twoBlocksGrid "stone" (3, 3) (11, 3) ∧
  ¬ connected twoBlocksGrid "stone" (3, 3) (5, 3).
Proof. split; intros Hc; apply twoBlocksGrid_region in Hc; lia. Qed.
